(** * model_logger: a shallow embedding of [ModelLogger] (log_level.py)

    The development follows the source file top to bottom: the level
    tables, the constructor, archive naming, pruning of old archives,
    rotation, the write path and the public logging call.  Python
    statements that touch the operating system are run in a small
    state-and-exception monad over an explicit model of the file system,
    the clock and the console. *)

From Stdlib Require Import ZArith Lia List Ascii String.
From Stdlib.Strings Require Import Byte.
From stdpp Require Import base option list sorting gmap strings.

Local Open Scope Z_scope.

(** ** Python values *)

(** The exception classes the module can raise or let through.
    [ValueError] is what the specification calls InvalidLevel; [OSError]
    covers every failed system call (ArchiveIOError, WriteIOError);
    [UnicodeEncodeError] is raised by a text-mode write whose text the
    file's encoding cannot represent. *)
Inductive exn := ValueError | KeyError | TypeError | OSError | UnicodeEncodeError.

Inductive result (A : Type) :=
  | Ok (a : A)
  | Raise (e : exn).
Arguments Ok {A} a.
Arguments Raise {A} e.

(** [str(e)]: the text of an exception is rendered by its class name. *)
Definition exn_str (e : exn) : string :=
  match e with
  | ValueError => "ValueError"
  | KeyError => "KeyError"
  | TypeError => "TypeError"
  | OSError => "OSError"
  | UnicodeEncodeError => "UnicodeEncodeError"
  end.

(** ** Strings *)

Definition upper_ascii (c : ascii) : ascii :=
  let n := N_of_ascii c in
  if ((97 <=? n) && (n <=? 122))%N then ascii_of_N (n - 32) else c.

(** [str.upper] on ASCII text; bytes outside a-z are kept. *)
Fixpoint upper (s : string) : string :=
  match s with
  | EmptyString => EmptyString
  | String c s' => String (upper_ascii c) (upper s')
  end.

(** [str.startswith]. *)
Definition startswith (s pre : string) : bool := String.prefix pre s.

(** [str.endswith]. *)
Definition endswith (s suf : string) : bool :=
  String.prefix (String.rev suf) (String.rev s).

Fixpoint spaces (n : nat) : string :=
  match n with
  | O => EmptyString
  | S n' => String " " (spaces n')
  end.

(** The format spec [{s:<8}]: left-justified, padded with blanks to [n]. *)
Definition ljust (n : nat) (s : string) : string :=
  s +:+ spaces (n - String.length s).

(** Text written through a text-mode handle: one byte per character. *)
Definition encode (s : string) : list byte := list_byte_of_string s.

(** ** Wall-clock time and [strftime] *)

Record datetime := DateTime {
  year : N; month : N; day : N; hour : N; minute : N; second : N }.

Definition digit (n : N) : ascii := ascii_of_N (48 + n mod 10).

Definition pad2 (n : N) : string :=
  String (digit (n / 10)) (String (digit n) EmptyString).

Definition pad4 (n : N) : string := pad2 (n / 100) +:+ pad2 n.

(** [datetime.strftime] for the numeric directives the module's two
    format strings use (%Y %m %d %H %M %S, and %% for a percent sign);
    every other character is copied. *)
Fixpoint strftime (fmt : string) (t : datetime) : string :=
  match fmt with
  | EmptyString => EmptyString
  | String "%" (String c rest) =>
      (if Ascii.eqb c "Y" then pad4 (year t)
       else if Ascii.eqb c "m" then pad2 (month t)
       else if Ascii.eqb c "d" then pad2 (day t)
       else if Ascii.eqb c "H" then pad2 (hour t)
       else if Ascii.eqb c "M" then pad2 (minute t)
       else if Ascii.eqb c "S" then pad2 (second t)
       else if Ascii.eqb c "%" then "%"
       else String "%" (String c EmptyString)) +:+ strftime rest t
  | String c rest => String c (strftime rest t)
  end.

(** ** The file system, the clock and the console *)

(** A directory is the list of its components from the root; a file path
    is a directory and a base name, so [os.path.basename] is the second
    projection and [os.path.join d n] is the pair.  Paths are taken as
    already resolved ([os.path.abspath]); a path names a regular file or
    nothing. *)
Definition dirpath := list string.
Definition path := (dirpath * string)%type.

Definition basename (p : path) : string := snd p.
Definition dirname (p : path) : dirpath := fst p.
Definition join (d : dirpath) (n : string) : path := (d, n).

Fixpoint dir_str (d : dirpath) : string :=
  match d with
  | [] => EmptyString
  | c :: d' => "/" +:+ c +:+ dir_str d'
  end.

Definition path_str (p : path) : string := dir_str (fst p) +:+ "/" +:+ snd p.

(** A regular file: its bytes and its modification time (seconds since
    the epoch, as an integer number of clock ticks). *)
Record file := File { data : list byte; mtime : Z }.

(** The ways the environment can make a system call fail (permissions,
    a full disk, an append-only file...).  [copy_fails p = Some junk]
    breaks a copy into [p] part-way, leaving [junk] behind.
    [append_fails p] makes the appending open of [p] fail;
    [encode_fails s] says the file encoding cannot represent the text
    [s]; [write_fails p = Some k] breaks a write to the opened [p] after
    [k] bytes.  [makedirs_fails d] makes [os.makedirs] of [d] fail, after
    it has made the first [makedirs_partial d] components of [d]. *)
Record faults := Faults {
  read_fails : path → bool;
  create_fails : path → bool;
  copy_fails : path → option (list byte);
  truncate_fails : path → bool;
  append_fails : path → bool;
  encode_fails : string → bool;
  write_fails : path → option nat;
  remove_fails : path → bool;
  listdir_fails : dirpath → bool;
  makedirs_fails : dirpath → bool;
  makedirs_partial : dirpath → nat }.

Definition no_faults : faults :=
  {| read_fails := λ _, false; create_fails := λ _, false;
     copy_fails := λ _, None; truncate_fails := λ _, false;
     append_fails := λ _, false; encode_fails := λ _, false;
     write_fails := λ _, None; remove_fails := λ _, false;
     listdir_fails := λ _, false; makedirs_fails := λ _, false;
     makedirs_partial := λ _, O |}.

Record world := World {
  files : gmap path file;
  dirs : gset dirpath;
  epoch : Z;
  wall : datetime;
  console : list string;
  env : faults }.

Definition set_files (fs : gmap path file) (w : world) : world :=
  {| files := fs; dirs := dirs w; epoch := epoch w; wall := wall w;
     console := console w; env := env w |}.

Definition set_dirs (ds : gset dirpath) (w : world) : world :=
  {| files := files w; dirs := ds; epoch := epoch w; wall := wall w;
     console := console w; env := env w |}.

Definition set_console (c : list string) (w : world) : world :=
  {| files := files w; dirs := dirs w; epoch := epoch w; wall := wall w;
     console := c; env := env w |}.

(** ** The monad: state passing with exceptions

    A raised exception keeps the world as it was when it was raised:
    nothing is rolled back. *)
Definition IO (A : Type) : Type := world → world * result A.

Definition ret {A} (a : A) : IO A := λ w, (w, Ok a).
Definition raise {A} (e : exn) : IO A := λ w, (w, Raise e).

Definition bind {A B} (m : IO A) (k : A → IO B) : IO B :=
  λ w, match m w with
       | (w', Ok a) => k a w'
       | (w', Raise e) => (w', Raise e)
       end.

(** [try: m except Exception as e: h e]. *)
Definition try_except {A} (m : IO A) (h : exn → IO A) : IO A :=
  λ w, match m w with
       | (w', Ok a) => (w', Ok a)
       | (w', Raise e) => h e w'
       end.

(** [try: m except OSError as e: h e]: other exceptions pass through. *)
Definition try_except_OSError {A} (m : IO A) (h : exn → IO A) : IO A :=
  λ w, match m w with
       | (w', Raise OSError) => h OSError w'
       | r => r
       end.

Declare Scope io_scope.
Delimit Scope io_scope with io.
Notation "x <- m ;; k" := (bind m (λ x, k))
  (at level 100, m at next level, right associativity) : io_scope.
Notation "m ;; k" := (bind m (λ _, k))
  (at level 100, right associativity) : io_scope.
Local Open Scope io_scope.

(** [for x in l: body x]. *)
Fixpoint for_each {A} (l : list A) (body : A → IO unit) : IO unit :=
  match l with
  | [] => ret tt
  | x :: l' => body x ;; for_each l' body
  end.

(** ** System calls *)

Definition print (s : string) : IO unit :=
  λ w, (set_console (console w ++ [s]) w, Ok tt).

Definition datetime_now : IO datetime := λ w, (w, Ok (wall w)).

Definition os_path_exists (p : path) : IO bool :=
  λ w, (w, Ok (bool_decide (is_Some (files w !! p)))).

Definition os_path_getsize (p : path) : IO Z :=
  λ w, match files w !! p with
       | Some f => (w, Ok (Z.of_nat (length (data f))))
       | None => (w, Raise OSError)
       end.

Definition os_path_getmtime (p : path) : IO Z :=
  λ w, match files w !! p with
       | Some f => (w, Ok (mtime f))
       | None => (w, Raise OSError)
       end.

Definition dir_exists (w : world) (d : dirpath) : bool :=
  bool_decide (d ∈ dirs w).

(** The names of the regular files of directory [d]. *)
Definition dir_entries (w : world) (d : dirpath) : list string :=
  omap (λ kv : path * file,
          if decide (fst (fst kv) = d) then Some (snd (fst kv)) else None)
       (map_to_list (files w)).

Definition os_listdir (d : dirpath) : IO (list string) :=
  λ w, if negb (dir_exists w d) || listdir_fails (env w) d
       then (w, Raise OSError)
       else (w, Ok (dir_entries w d)).

Definition ancestors (d : dirpath) : list dirpath :=
  map (λ k, take k d) (seq 0 (S (length d))).

(** The leading part of [d] that a failing [os.makedirs] has made: it
    stops before the last component. *)
Definition made_before_failure (w : world) (d : dirpath) : dirpath :=
  take (makedirs_partial (env w) d `min` pred (length d)) d.

(** [os.makedirs(d, exist_ok=True)]: the components are made from the
    root down, so a call that fails has made some leading ones. *)
Definition os_makedirs (d : dirpath) : IO unit :=
  λ w, if makedirs_fails (env w) d
       then (set_dirs (dirs w ∪ list_to_set (ancestors (made_before_failure w d))) w,
             Raise OSError)
       else (set_dirs (dirs w ∪ list_to_set (ancestors d)) w, Ok tt).

Definition os_remove (p : path) : IO unit :=
  λ w, match files w !! p with
       | Some _ =>
           if remove_fails (env w) p then (w, Raise OSError)
           else (set_files (delete p (files w)) w, Ok tt)
       | None => (w, Raise OSError)
       end.

Definition put_file (p : path) (bs : list byte) (w : world) : world :=
  set_files (<[p := File bs (epoch w)]> (files w)) w.

(** [open(p, 'rb')]: the file must be there and readable. *)
Definition open_rb (p : path) : IO unit :=
  λ w, match files w !! p with
       | Some _ => if read_fails (env w) p then (w, Raise OSError) else (w, Ok tt)
       | None => (w, Raise OSError)
       end.

(** [gzip.open(p, 'wb')]: creates the file, or empties an existing one. *)
Definition gzip_open_wb (p : path) : IO unit :=
  λ w, if negb (dir_exists w (dirname p)) || create_fails (env w) p
       then (w, Raise OSError)
       else (put_file p [] w, Ok tt).

(** [open(p, 'w').close()]. *)
Definition open_w_close (p : path) : IO unit :=
  λ w, if negb (dir_exists w (dirname p)) || truncate_fails (env w) p
       then (w, Raise OSError)
       else (put_file p [] w, Ok tt).

(** [open(p, 'a')]: the file is created when it is not there. *)
Definition open_a (p : path) : IO unit :=
  λ w, if negb (dir_exists w (dirname p)) || append_fails (env w) p
       then (w, Raise OSError)
       else match files w !! p with
            | Some _ => (w, Ok tt)
            | None => (put_file p [] w, Ok tt)
            end.

(** [file.write(s)] on the handle opened for appending, with the flush
    on leaving the [with] block: the text is encoded first, then the
    bytes go to the end of the file, all of them or only the first
    few. *)
Definition file_write (p : path) (s : string) : IO unit :=
  λ w, if encode_fails (env w) s then (w, Raise UnicodeEncodeError)
       else
         let old := match files w !! p with Some f => data f | None => [] end in
         match write_fails (env w) p with
         | Some k => (put_file p (old ++ take k (encode s)) w, Raise OSError)
         | None => (put_file p (old ++ encode s) w, Ok tt)
         end.

(** [with open(p, 'a') as file: file.write(s)]. *)
Definition open_a_write (p : path) (s : string) : IO unit :=
  open_a p ;; file_write p s.

Definition lift {A} (r : result A) : IO A := λ w, (w, r).

(** ** Python lists *)

(** The slice [l[k:]], with Python's reading of a negative [k]. *)
Definition slice_from {A} (k : Z) (l : list A) : list A :=
  if k <? 0 then drop (Z.to_nat (Z.max 0 (Z.of_nat (length l) + k))) l
  else drop (Z.to_nat k) l.

(** [l.sort(key=lambda x: x[1], reverse=True)]: a stable sort, largest
    key first; entries with equal keys keep their order. *)
Fixpoint insert_newest (x : path * Z) (l : list (path * Z)) : list (path * Z) :=
  match l with
  | [] => [x]
  | y :: l' => if snd y <=? snd x then x :: y :: l' else y :: insert_newest x l'
  end.

Definition sort_newest_first (l : list (path * Z)) : list (path * Z) :=
  foldr insert_newest [] l.

(** ** class ModelLogger *)

Definition LOG_LEVELS : gmap string Z :=
  list_to_map [("DEBUG", 0); ("INFO", 1); ("SUCCESS", 2); ("WARNING", 3); ("ERROR", 4)].

Definition esc (code : string) : string := String (ascii_of_N 27) code.

(** colorama's [Fore.*] and [Style.RESET_ALL] escape sequences. *)
Definition COLORS : gmap string string :=
  list_to_map [("INFO", esc "[34m"); ("SUCCESS", esc "[32m"); ("WARNING", esc "[33m");
               ("ERROR", esc "[31m"); ("DEBUG", esc "[35m")].

Definition RESET_ALL : string := esc "[0m".

(** The attributes of an instance.  An [Optional[str]] path is [None] or
    a path (the empty string is not a path); [timestamp_format] keeps the
    string, whose truth value the code tests. *)
Record ModelLogger := Logger {
  name : string;
  file_path : option path;
  timestamp_format : option string;
  level : string;
  max_file_size : Z;
  backup_count : Z;
  archive_dir : option dirpath }.

Definition set_level_field (l : string) (self : ModelLogger) : ModelLogger :=
  {| name := name self; file_path := file_path self;
     timestamp_format := timestamp_format self; level := l;
     max_file_size := max_file_size self; backup_count := backup_count self;
     archive_dir := archive_dir self |}.

(** Truth value of an [Optional[str]]. *)
Definition truthy (o : option string) : bool :=
  match o with
  | Some s => negb (String.eqb s "")
  | None => false
  end.

Definition DEFAULT_TIMESTAMP_FORMAT : string := "%Y-%m-%d %H:%M:%S".
Definition DEFAULT_MAX_FILE_SIZE : Z := 10 * 1024 * 1024.
Definition DEFAULT_BACKUP_COUNT : Z := 5.

(** [ModelLogger.__init__]; the new object is the result, and is lost
    when the constructor raises. *)
Definition __init__ (name_arg : option string) (file_path_arg : option path)
    (timestamp_format_arg : option string) (level_arg : string)
    (max_file_size_arg backup_count_arg : Z) (archive_dir_arg : option dirpath)
    : IO ModelLogger :=
  let self_name := if truthy name_arg then default "ModelLogger" name_arg
                   else "ModelLogger" in
  let self_level := upper level_arg in
  let self_archive_dir :=
    match file_path_arg, archive_dir_arg with
    | Some fp, None => Some (dirname fp ++ ["logs"; "archive"])
    | _, _ => archive_dir_arg
    end in
  let self :=
    {| name := self_name; file_path := file_path_arg;
       timestamp_format := timestamp_format_arg; level := self_level;
       max_file_size := max_file_size_arg; backup_count := backup_count_arg;
       archive_dir := self_archive_dir |} in
  (match file_path_arg, self_archive_dir with
   | Some _, Some d => os_makedirs d
   | _, _ => ret tt
   end) ;;
  match LOG_LEVELS !! self_level with
  | None => raise ValueError
  | Some _ => ret self
  end.

(** [_get_archive_filename]. *)
Definition _get_archive_filename (self : ModelLogger) : IO string :=
  now <- datetime_now ;;
  let timestamp := strftime "%Y%m%d_%H%M%S" now in
  match file_path self with
  | None => raise TypeError
  | Some fp => ret (basename fp +:+ "_" +:+ timestamp +:+ ".gz")
  end.

(** The loop of [_cleanup_old_archives] that gathers the archives of the
    log with their modification times, in listing order. *)
Fixpoint collect_archives (self : ModelLogger) (d : dirpath) (listing : list string)
    : IO (list (path * Z)) :=
  match listing with
  | [] => ret []
  | f :: rest =>
      if endswith f ".gz" then
        match file_path self with
        | None => raise TypeError
        | Some fp =>
            if startswith f (basename fp) then
              let full_path := join d f in
              m <- os_path_getmtime full_path ;;
              archives <- collect_archives self d rest ;;
              ret ((full_path, m) :: archives)
            else collect_archives self d rest
        end
      else collect_archives self d rest
  end.

Definition remove_archive (entry : path * Z) : IO unit :=
  let archive_path := fst entry in
  try_except_OSError (os_remove archive_path)
    (λ e, print ("Error removing old archive " +:+ path_str archive_path
                 +:+ ": " +:+ exn_str e)).

(** [_cleanup_old_archives]. *)
Definition _cleanup_old_archives (self : ModelLogger) : IO unit :=
  match archive_dir self with
  | None => ret tt
  | Some d =>
      listing <- os_listdir d ;;
      archives <- collect_archives self d listing ;;
      let archives := sort_newest_first archives in
      for_each (slice_from (backup_count self) archives) remove_archive
  end.

(** [_should_log]: both table lookups raise [KeyError] on a missing key. *)
Definition _should_log (self : ModelLogger) (lvl : string) : result bool :=
  match LOG_LEVELS !! lvl with
  | None => Raise KeyError
  | Some pl =>
      match LOG_LEVELS !! level self with
      | None => Raise KeyError
      | Some pm => Ok (pl >=? pm)
      end
  end.

(** [set_level]: the object after the call, and the call's outcome. *)
Definition set_level (self : ModelLogger) (lvl : string) : ModelLogger * result unit :=
  let lvl := upper lvl in
  match LOG_LEVELS !! lvl with
  | None => (self, Raise ValueError)
  | Some _ => (set_level_field lvl self, Ok tt)
  end.

Section Rotation.

(** [gzip] is a library: what it writes for given bytes is a parameter. *)
Variable gzip_compress : list byte → list byte.

(** [shutil.copyfileobj(f_in, f_out)] with [f_out] a gzip stream. *)
Definition copyfileobj (src dst : path) : IO unit :=
  λ w, match copy_fails (env w) dst with
       | Some junk => (put_file dst junk w, Raise OSError)
       | None =>
           match files w !! src with
           | Some f => (put_file dst (gzip_compress (data f)) w, Ok tt)
           | None => (w, Raise OSError)
           end
       end.

(** The nested [with] statements of [_rotate_log_file]: the log is
    opened for reading, the archive for writing, and the one is copied
    into the other. *)
Definition compress_log (fp archive_path : path) : IO unit :=
  open_rb fp ;;
  gzip_open_wb archive_path ;;
  copyfileobj fp archive_path.

(** [_rotate_log_file]. *)
Definition _rotate_log_file (self : ModelLogger) : IO unit :=
  match file_path self with
  | None => ret tt
  | Some fp =>
      present <- os_path_exists fp ;;
      if negb present then ret tt
      else
        size <- os_path_getsize fp ;;
        if size >=? max_file_size self then
          archive_name <- _get_archive_filename self ;;
          archive_path <- match archive_dir self with
                          | None => raise TypeError
                          | Some d => ret (join d archive_name)
                          end ;;
          try_except
            (compress_log fp archive_path ;;
             open_w_close fp ;;
             _cleanup_old_archives self)
            (λ e, print ("Error during log rotation: " +:+ exn_str e))
        else ret tt
  end.

(** [_write_to_file]. *)
Definition _write_to_file (self : ModelLogger) (message : string) : IO unit :=
  match file_path self with
  | None => ret tt
  | Some fp =>
      _rotate_log_file self ;;
      open_a_write fp (message +:+ String (ascii_of_N 10) EmptyString)
  end.

(** [_log]. *)
Definition _log (self : ModelLogger) (lvl message : string) : IO unit :=
  should <- lift (_should_log self lvl) ;;
  if negb should then ret tt
  else
    now <- datetime_now ;;
    let timestamp :=
      if truthy (timestamp_format self)
      then strftime (default "" (timestamp_format self)) now
      else strftime "%Y-%m-%d %H:%M:%S" now in
    let color := default "" (COLORS !! lvl) in
    let plain_message :=
      "[" +:+ timestamp +:+ "] " +:+ ljust 8 lvl +:+ " " +:+ name self
          +:+ ": " +:+ message in
    let formatted_message := color +:+ plain_message +:+ RESET_ALL in
    print formatted_message ;;
    match file_path self with
    | Some _ => _write_to_file self plain_message
    | None => ret tt
    end.

Definition info (self : ModelLogger) (message : string) : IO unit :=
  _log self "INFO" message.
Definition success (self : ModelLogger) (message : string) : IO unit :=
  _log self "SUCCESS" message.
Definition warning (self : ModelLogger) (message : string) : IO unit :=
  _log self "WARNING" message.
Definition error (self : ModelLogger) (message : string) : IO unit :=
  _log self "ERROR" message.
Definition debug (self : ModelLogger) (message : string) : IO unit :=
  _log self "DEBUG" message.

End Rotation.

(** ** Vocabulary of the properties *)

(** [list(LOG_LEVELS.keys())]: the five recognized level names. *)
Definition level_names : list string :=
  ["DEBUG"; "INFO"; "SUCCESS"; "WARNING"; "ERROR"].

Definition priority (lvl : string) : option Z := LOG_LEVELS !! lvl.

(** [f] is the name of an archive of the log called [base]: the test of
    the listing loop in [_cleanup_old_archives]. *)
Definition is_archive (base f : string) : bool :=
  endswith f ".gz" && startswith f base.

(** The archive path [_rotate_log_file] builds for log [fp] at time [t]. *)
Definition archive_name_at (fp : path) (t : datetime) : string :=
  basename fp +:+ "_" +:+ strftime "%Y%m%d_%H%M%S" t +:+ ".gz".

(** What the listing loop gathers from [listing] when every lookup of a
    modification time succeeds. *)
Definition archive_entries (base : string) (d : dirpath) (w : world)
    (listing : list string) : list (path * Z) :=
  omap (λ f, if is_archive base f
             then (λ fl, (join d f, mtime fl)) <$> files w !! join d f
             else None) listing.

(** The files of directory [d] that are archives of the log [base]. *)
Definition archives_in (base : string) (d : dirpath) (w : world) : gmap path file :=
  filter (λ kv : path * file, fst (fst kv) = d ∧ is_archive base (snd (fst kv)) = true)
         (files w).

Definition archive_count (base : string) (d : dirpath) (w : world) : nat :=
  size (archives_in base d w).

Definition file_size (f : file) : Z := Z.of_nat (length (data f)).

(** The record [_write_to_file] appends for a message. *)
Definition record_bytes (message : string) : list byte :=
  encode (message +:+ String (ascii_of_N 10) EmptyString).

(** The system calls of the compression step go through. *)
Definition can_compress (w : world) (fp archive_path : path) : Prop :=
  read_fails (env w) fp = false ∧ dirname archive_path ∈ dirs w ∧
  create_fails (env w) archive_path = false ∧
  copy_fails (env w) archive_path = None.

(** The truncating [open(fp, 'w')] goes through. *)
Definition can_truncate (w : world) (fp : path) : Prop :=
  dirname fp ∈ dirs w ∧ truncate_fails (env w) fp = false.

(** The appending [open(fp, 'a')] goes through. *)
Definition can_append (w : world) (fp : path) : Prop :=
  dirname fp ∈ dirs w ∧ append_fails (env w) fp = false.

(** The whole append goes through: the open, the encoding of the text
    and the write of its bytes. *)
Definition can_write (w : world) (fp : path) (s : string) : Prop :=
  can_append w fp ∧ encode_fails (env w) s = false ∧ write_fails (env w) fp = None.

(** The text [_write_to_file] appends for a message. *)
Definition record_text (message : string) : string :=
  message +:+ String (ascii_of_N 10) EmptyString.

(** The live log is not itself counted among its archives. *)
Definition log_apart (fp : path) (d : dirpath) : Prop :=
  dirname fp ≠ d ∨ endswith (basename fp) ".gz" = false.

(** [stable w w']: the directories, the fault environment and the clock
    are the same in both worlds. *)
Definition stable (w w' : world) : Prop :=
  dirs w' = dirs w ∧ env w' = env w ∧ epoch w' = epoch w ∧ wall w' = wall w.

Definition preserves {A} (m : IO A) : Prop :=
  ∀ w w' r, m w = (w', r) → stable w w'.

(** No entry is followed, anywhere later in the list, by a newer one. *)
Definition newest_first (l : list (path * Z)) : Prop :=
  StronglySorted (λ a b, snd b <= snd a) l.

(** The archives of log [base] in directory [d], newest first: the list
    [_cleanup_old_archives] slices. *)
Definition sorted_archives (base : string) (d : dirpath) (w : world) : list (path * Z) :=
  sort_newest_first (archive_entries base d w (dir_entries w d)).

Definition set_env (e : faults) (w : world) : world :=
  {| files := files w; dirs := dirs w; epoch := epoch w; wall := wall w;
     console := console w; env := e |}.

(** The clock moves on between two calls. *)
Definition set_clock (e : Z) (t : datetime) (w : world) : world :=
  {| files := files w; dirs := dirs w; epoch := e; wall := t;
     console := console w; env := env w |}.

(** Once an archive has been opened for writing, the remaining system
    calls of a rotation go through: the copy, the truncation of the log,
    the listing of the archive directory and the removals. *)
Definition rotation_completes (w : world) : Prop :=
  (∀ p, copy_fails (env w) p = None) ∧
  (∀ p, truncate_fails (env w) p = false) ∧
  (∀ d, listdir_fails (env w) d = false) ∧
  (∀ p, remove_fails (env w) p = false).

(** The worlds a logger can reach from [w0] by calls of [_write_to_file]
    and of [_rotate_log_file], whatever their outcome, the clock moving
    freely between the calls. *)
Inductive logging_run (gz : list byte → list byte) (self : ModelLogger) (w0 : world)
    : world → Prop :=
  | run_start : logging_run gz self w0 w0
  | run_write (w1 w2 : world) (e : Z) (t : datetime) (message : string) (r : result unit) :
      logging_run gz self w0 w1 →
      _write_to_file gz self message (set_clock e t w1) = (w2, r) →
      logging_run gz self w0 w2
  | run_rotate (w1 w2 : world) (e : Z) (t : datetime) (r : result unit) :
      logging_run gz self w0 w1 →
      _rotate_log_file gz self (set_clock e t w1) = (w2, r) →
      logging_run gz self w0 w2.

(** The worlds reached from [w0] by calls of [_rotate_log_file] alone,
    whatever their outcome, the clock moving freely between the calls. *)
Inductive rotation_run (gz : list byte → list byte) (self : ModelLogger) (w0 : world)
    : world → Prop :=
  | rotations_start : rotation_run gz self w0 w0
  | rotations_step (w1 w2 : world) (e : Z) (t : datetime) (r : result unit) :
      rotation_run gz self w0 w1 →
      _rotate_log_file gz self (set_clock e t w1) = (w2, r) →
      rotation_run gz self w0 w2.

(** [respects R m]: every run of [m], normal or not, relates the world
    before to the world after by [R]. *)
Definition respects {A} (R : relation world) (m : IO A) : Prop :=
  ∀ w w' r, m w = (w', r) → R w w'.

(** The files that do not satisfy [P] are the same in both worlds. *)
Definition same_files_outside (P : path → Prop) : relation world :=
  λ w w', ∀ p, ¬ P p → files w' !! p = files w !! p.

(** The console of the first world is the beginning of the second's. *)
Definition console_extends : relation world :=
  λ w w', console w `prefix_of` console w'.

(** The files a logger may write or remove: its log, and the archives
    of its log in its archive directory. *)
Definition own_file (self : ModelLogger) (p : path) : Prop :=
  file_path self = Some p ∨
  ∃ fp, file_path self = Some fp ∧ archive_dir self = Some (dirname p) ∧
        is_archive (basename fp) (basename p) = true.

(** The timestamp [_log] renders at wall-clock time [t]. *)
Definition timestamp_of (self : ModelLogger) (t : datetime) : string :=
  if truthy (timestamp_format self)
  then strftime (default "" (timestamp_format self)) t
  else strftime "%Y-%m-%d %H:%M:%S" t.

(** The line [_log] writes to the file ([plain_message]). *)
Definition plain_line (self : ModelLogger) (lvl message : string) (t : datetime) : string :=
  "[" +:+ timestamp_of self t +:+ "] " +:+ ljust 8 lvl +:+ " " +:+ name self
      +:+ ": " +:+ message.

(** The line [_log] prints ([formatted_message]). *)
Definition colour_line (self : ModelLogger) (lvl message : string) (t : datetime) : string :=
  default "" (COLORS !! lvl) +:+ plain_line self lvl message t +:+ RESET_ALL.

(** The object after a series of [set_level] calls, failed ones included. *)
Definition set_levels (self : ModelLogger) (names : list string) : ModelLogger :=
  foldl (λ s lvl, fst (set_level s lvl)) self names.

(** The archive directory the constructor settles on for a file path. *)
Definition chosen_archive_dir (fp : path) (archive_dir_arg : option dirpath) : dirpath :=
  default (dirname fp ++ ["logs"; "archive"]) archive_dir_arg.

(** Where the slice [l[k:]] starts in a list of length [n]. *)
Definition slice_start (k : Z) (n : nat) : nat :=
  if k <? 0 then Z.to_nat (Z.max 0 (Z.of_nat n + k)) else Z.to_nat k.

(** No removal fails. *)
Definition removals_succeed (w : world) : Prop :=
  ∀ p, remove_fails (env w) p = false.

(** The archive directory can be listed. *)
Definition can_list (w : world) (d : dirpath) : Prop :=
  d ∈ dirs w ∧ listdir_fails (env w) d = false.

(** A stand-in codec for running the model: a two-byte magic number in
    front of the stored bytes. *)
Definition store_compress (bs : list byte) : list byte := x1f :: x8b :: bs.


(** ** Scenarios *)

Definition noon : datetime := DateTime 2024 3 9 12 0 0.

Definition app_log : path := (["srv"; "app"], "app.log").
Definition app_archive : dirpath := ["srv"; "app"; "logs"; "archive"].

Definition warning_logger : ModelLogger :=
  {| name := "ModelLogger"; file_path := Some app_log;
     timestamp_format := Some DEFAULT_TIMESTAMP_FORMAT; level := "WARNING";
     max_file_size := 10; backup_count := 2; archive_dir := Some app_archive |}.

(** An empty disk on which only the directory of the log exists. *)
Definition bare_world : world :=
  {| files := ∅; dirs := list_to_set (ancestors ["srv"; "app"]);
     epoch := 1000; wall := noon; console := []; env := no_faults |}.

(** The log has reached the ten bytes at which [warning_logger] rotates;
    the archive directory exists. *)
Definition full_world : world :=
  {| files := {[ app_log := File (encode "0123456789") 900 ]};
     dirs := list_to_set (ancestors app_archive);
     epoch := 1000; wall := noon; console := []; env := no_faults |}.

Definition full_archive : path := join app_archive (archive_name_at app_log noon).

(** The same disk, but the log cannot be opened for reading. *)
Definition unreadable_world : world :=
  set_env {| read_fails := λ p, bool_decide (p = app_log);
             create_fails := λ _, false; copy_fails := λ _, None;
             truncate_fails := λ _, false; append_fails := λ _, false;
             encode_fails := λ _, false; write_fails := λ _, None;
             remove_fails := λ _, false; listdir_fails := λ _, false;
             makedirs_fails := λ _, false; makedirs_partial := λ _, O |} full_world.

(** The same disk, but the log is append-only: it cannot be truncated. *)
Definition append_only_world : world :=
  set_env {| read_fails := λ _, false;
             create_fails := λ _, false; copy_fails := λ _, None;
             truncate_fails := λ p, bool_decide (p = app_log);
             append_fails := λ _, false;
             encode_fails := λ _, false; write_fails := λ _, None;
             remove_fails := λ _, false; listdir_fails := λ _, false;
             makedirs_fails := λ _, false; makedirs_partial := λ _, O |} full_world.

Definition old_archive : path := join app_archive "app.log_20240101_000000.gz".
Definition mid_archive : path := join app_archive "app.log_20240201_000000.gz".
Definition new_archive : path := join app_archive "app.log_20240301_000000.gz".
Definition foreign_archive : path := join app_archive "web.log_20230101_000000.gz".
Definition notes_file : path := join app_archive "app.log.notes".

(** An archive directory holding three archives of app.log, an archive
    of another log and a file that is no archive; [warning_logger]
    keeps two. *)
Definition crowded_world : world :=
  {| files := {[ app_log := File (encode "0123456789") 900;
                 old_archive := File [x1f; x8b] 100;
                 new_archive := File [x1f; x8b] 300;
                 mid_archive := File [x1f; x8b] 200;
                 foreign_archive := File [x1f; x8b] 50;
                 notes_file := File [] 10 ]};
     dirs := list_to_set (ancestors app_archive);
     epoch := 1000; wall := noon; console := []; env := no_faults |}.

(** Two archives are kept already and the log is read-only: it can be
    read, but neither truncated nor appended to. *)
Definition read_only_log_world : world :=
  {| files := {[ app_log := File (encode "0123456789") 900;
                 new_archive := File [x1f; x8b] 300;
                 mid_archive := File [x1f; x8b] 200 ]};
     dirs := list_to_set (ancestors app_archive);
     epoch := 1000; wall := noon; console := [];
     env := {| read_fails := λ _, false;
               create_fails := λ _, false; copy_fails := λ _, None;
               truncate_fails := λ p, bool_decide (p = app_log);
               append_fails := λ p, bool_decide (p = app_log);
               encode_fails := λ _, false; write_fails := λ _, None;
               remove_fails := λ _, false; listdir_fails := λ _, false;
               makedirs_fails := λ _, false; makedirs_partial := λ _, O |} |}.

(** A disk on which [os.makedirs] fails once it has made three leading
    components. *)
Definition locked_world : world :=
  set_env {| read_fails := λ _, false;
             create_fails := λ _, false; copy_fails := λ _, None;
             truncate_fails := λ _, false; append_fails := λ _, false;
             encode_fails := λ _, false; write_fails := λ _, None;
             remove_fails := λ _, false; listdir_fails := λ _, false;
             makedirs_fails := λ _, true; makedirs_partial := λ _, 3%nat |} bare_world.

(** [warning_logger] with nothing kept, and with a neighbour whose log
    name extends its own. *)
Definition discarding_logger : ModelLogger :=
  {| name := "ModelLogger"; file_path := Some app_log;
     timestamp_format := Some DEFAULT_TIMESTAMP_FORMAT; level := "WARNING";
     max_file_size := 10; backup_count := 0; archive_dir := Some app_archive |}.

Definition app_log_audit : path := (["srv"; "app"], "app.log.audit").

(** The archive directory also holds an archive written by a neighbour
    logging to app.log.audit. *)
Definition audit_archive : path := join app_archive (archive_name_at app_log_audit noon).

Definition shared_world : world :=
  {| files := {[ app_log := File (encode "0123") 900;
                 audit_archive := File [x1f; x8b] 950 ]};
     dirs := list_to_set (ancestors app_archive);
     epoch := 1000; wall := noon; console := []; env := no_faults |}.

(** An archive stamped in the future (a clock that was set back). *)
Definition skewed_world : world :=
  {| files := {[ app_log := File (encode "0123456789") 900;
                 old_archive := File [x1f; x8b] 5000 ]};
     dirs := list_to_set (ancestors app_archive);
     epoch := 1000; wall := noon; console := []; env := no_faults |}.

Definition single_backup_logger : ModelLogger :=
  {| name := "ModelLogger"; file_path := Some app_log;
     timestamp_format := Some DEFAULT_TIMESTAMP_FORMAT; level := "WARNING";
     max_file_size := 10; backup_count := 1; archive_dir := Some app_archive |}.

(** A log whose name ends in .gz, archived into its own directory with
    nothing kept: the log is a pruning candidate of its own logger. *)
Definition gz_log : path := (["srv"; "app"], "app.gz").

Definition gz_logger : ModelLogger :=
  {| name := "ModelLogger"; file_path := Some gz_log;
     timestamp_format := Some DEFAULT_TIMESTAMP_FORMAT; level := "WARNING";
     max_file_size := 10; backup_count := 0; archive_dir := Some ["srv"; "app"] |}.

Definition gz_world : world :=
  {| files := {[ gz_log := File (encode "0123456789") 900 ]};
     dirs := list_to_set (ancestors ["srv"; "app"]);
     epoch := 1000; wall := noon; console := []; env := no_faults |}.

(** Two archives are kept already, the log is full, and every system
    call goes through. *)
Definition two_kept_world : world :=
  {| files := {[ app_log := File (encode "0123456789") 900;
                 new_archive := File [x1f; x8b] 300;
                 mid_archive := File [x1f; x8b] 200 ]};
     dirs := list_to_set (ancestors app_archive);
     epoch := 1000; wall := noon; console := []; env := no_faults |}.

(** * Properties *)

(** ** Levels *)

Lemma priority_None (lvl : string) : priority lvl = None ↔ lvl ∉ level_names.
Proof.
  unfold priority, LOG_LEVELS. rewrite <- not_elem_of_list_to_map. reflexivity.
Qed.

Lemma priority_Some (lvl : string) : is_Some (priority lvl) ↔ lvl ∈ level_names.
Proof.
  rewrite <- not_eq_None_Some, priority_None.
  split; [apply dec_stable | auto].
Qed.

Lemma level_names_inv (lvl : string) :
  lvl ∈ level_names →
  lvl = "DEBUG" ∨ lvl = "INFO" ∨ lvl = "SUCCESS" ∨ lvl = "WARNING" ∨ lvl = "ERROR".
Proof.
  unfold level_names. rewrite !elem_of_cons, elem_of_nil. tauto.
Qed.

Ltac level_cases H :=
  apply level_names_inv in H; destruct H as [->|[->|[->|[->| ->]]]].

Lemma log_filtered gz (self : ModelLogger) (lvl message : string) (w : world) :
  _should_log self lvl = Ok false → _log gz self lvl message w = (w, Ok tt).
Proof. intros H. unfold _log, bind, lift. rewrite H. reflexivity. Qed.

(** C3: for a configured level M and a message level L among the five
    recognized names, [_should_log] answers whether priority(L) >=
    priority(M), the priorities being DEBUG=0, INFO=1, SUCCESS=2,
    WARNING=3, ERROR=4; and when priority(L) < priority(M), [_log] leaves
    the world as it was: nothing is printed and no file is written. *)
Theorem should_log_by_priority gz (self : ModelLogger) (lvl message : string) (w : world) :
  level self ∈ level_names → lvl ∈ level_names →
  priority <$> level_names = [Some 0; Some 1; Some 2; Some 3; Some 4] ∧
  ∃ pm pl, priority (level self) = Some pm ∧ priority lvl = Some pl ∧
    _should_log self lvl = Ok (bool_decide (pm <= pl)%Z) ∧
    ((pl < pm)%Z → _log gz self lvl message w = (w, Ok tt)).
Proof.
  intros HM HL. split; [reflexivity|].
  destruct self as [n fp tf M mfs bc ad]; simpl in HM.
  level_cases HM; level_cases HL;
    (eexists _, _; split; [reflexivity|]; split; [reflexivity|];
     split; [reflexivity|]; intros Hlt;
     first [ apply log_filtered; reflexivity | exfalso; revert Hlt; by vm_compute ]).
Qed.

Lemma should_log_by_priority_witness :
  level warning_logger ∈ level_names ∧ "INFO" ∈ level_names ∧
  ∃ pm pl, priority "WARNING" = Some pm ∧ priority "INFO" = Some pl ∧
    _should_log warning_logger "INFO" = Ok (bool_decide (pm <= pl)%Z) ∧
    ((pl < pm)%Z → _log store_compress warning_logger "INFO" "x" bare_world
               = (bare_world, Ok tt)).
Proof.
  assert (H1 : level warning_logger ∈ level_names) by (vm_compute; repeat constructor).
  assert (H2 : "INFO" ∈ level_names) by (vm_compute; repeat constructor).
  split; [exact H1|]. split; [exact H2|].
  exact (proj2 (should_log_by_priority store_compress warning_logger "INFO" "x"
                  bare_world H1 H2)).
Defined.

(** C8: when the uppercased argument is not one of the five names,
    [set_level] raises [ValueError] and the object is unchanged, so the
    effective level is the one before the call; when it is one of them,
    the level becomes the uppercased name. *)
Theorem set_level_validates (self : ModelLogger) (s : string) :
  (upper s ∉ level_names →
     set_level self s = (self, Raise ValueError) ∧
     level (fst (set_level self s)) = level self) ∧
  (upper s ∈ level_names →
     set_level self s = (set_level_field (upper s) self, Ok tt) ∧
     level (fst (set_level self s)) = upper s).
Proof.
  unfold set_level. split; intros H.
  - apply priority_None in H. unfold priority in H. rewrite H. done.
  - apply priority_Some in H. destruct H as [p H]. unfold priority in H.
    rewrite H. done.
Qed.

Lemma set_level_validates_witness :
  ((upper "bogus" ∉ level_names) ∧
   set_level warning_logger "bogus" = (warning_logger, Raise ValueError)) ∧
  (upper "debug" ∈ level_names ∧
   level (fst (set_level warning_logger "debug")) = "DEBUG").
Proof.
  assert (H1 : upper "bogus" ∉ level_names).
  { vm_compute. intros H. repeat (inversion H as [|? ? ? H0]; clear H; rename H0 into H; subst). }
  assert (H2 : upper "debug" ∈ level_names) by (vm_compute; repeat constructor).
  split.
  - split; [exact H1|].
    exact (proj1 (proj1 (set_level_validates warning_logger "bogus") H1)).
  - split; [exact H2|].
    exact (proj2 (proj2 (set_level_validates warning_logger "debug") H2)).
Defined.

(** ** The constructor *)

Lemma prefix_in_ancestors (q d : dirpath) : q `prefix_of` d → q ∈ ancestors d.
Proof.
  intros [k ->]. unfold ancestors. apply list_elem_of_fmap.
  exists (length q). split.
  - by rewrite take_app_length.
  - apply elem_of_seq. rewrite length_app. lia.
Qed.

Lemma makedirs_ok (d : dirpath) (w : world) :
  makedirs_fails (env w) d = false →
  os_makedirs d w = (set_dirs (dirs w ∪ list_to_set (ancestors d)) w, Ok tt).
Proof. intros H. unfold os_makedirs. by rewrite H. Qed.

(** C9: constructing with a file path and a level name that is not one of
    the five: the archive directory (the given one, or logs/archive next
    to the log file) and all its ancestors are on disk when [ValueError]
    is raised, and they stay there although no object was built.  The
    first part gives the outcome when [os.makedirs] succeeds; the second
    covers every run that ends in [ValueError]. *)
Theorem init_makes_archive_dir_before_raising
    (name_arg : option string) (fp : path) (tf : option string) (lvl : string)
    (mfs bc : Z) (ad : option dirpath) (w : world) :
  upper lvl ∉ level_names →
  let d := default (dirname fp ++ ["logs"; "archive"]) ad in
  (makedirs_fails (env w) d = false →
     ∃ w', __init__ name_arg (Some fp) tf lvl mfs bc ad w = (w', Raise ValueError) ∧
           (∀ q, q `prefix_of` d → q ∈ dirs w') ∧
           dirs w ⊆ dirs w' ∧ files w' = files w) ∧
  (∀ w', __init__ name_arg (Some fp) tf lvl mfs bc ad w = (w', Raise ValueError) →
         ∀ q, q `prefix_of` d → q ∈ dirs w').
Proof.
  intros Hlvl d. apply priority_None in Hlvl. unfold priority in Hlvl.
  assert (Hrun : ∀ w1, os_makedirs d w = (w1, Ok tt) →
            __init__ name_arg (Some fp) tf lvl mfs bc ad w = (w1, Raise ValueError)).
  { intros w1 Hmk. unfold __init__, bind. subst d.
    destruct ad as [a|]; simpl in *; rewrite Hmk, Hlvl; reflexivity. }
  assert (Hin : ∀ q, q `prefix_of` d →
            q ∈ dirs (set_dirs (dirs w ∪ list_to_set (ancestors d)) w)).
  { intros q Hq. cbn [dirs set_dirs]. apply elem_of_union_r, elem_of_list_to_set.
    by apply prefix_in_ancestors. }
  split.
  - intros Hok. eexists. split; [apply Hrun, makedirs_ok, Hok|].
    split; [exact Hin|]. split; [cbn [dirs set_dirs]; set_solver | reflexivity].
  - intros w' Hinit q Hq.
    destruct (makedirs_fails (env w) d) eqn:Hf.
    + exfalso. revert Hinit. unfold __init__, bind. subst d.
      destruct ad as [a|]; simpl in *; unfold os_makedirs; rewrite Hf; discriminate.
    + rewrite (Hrun _ (makedirs_ok d w Hf)) in Hinit.
      inversion Hinit; subst w'. by apply Hin.
Qed.

Lemma init_makes_archive_dir_before_raising_witness :
  (upper "verbose" ∉ level_names) ∧
  ∃ w', __init__ None (Some app_log) None "verbose" 10 2 None bare_world
          = (w', Raise ValueError) ∧
        app_archive ∈ dirs w' ∧ ["srv"; "app"; "logs"] ∈ dirs w'.
Proof.
  assert (H1 : upper "verbose" ∉ level_names).
  { vm_compute. intros H. repeat (inversion H as [|? ? ? H0]; clear H; rename H0 into H; subst). }
  split; [exact H1|].
  destruct (proj1 (init_makes_archive_dir_before_raising None app_log None "verbose"
                     10 2 None bare_world H1) eq_refl) as (w' & Hrun & Hdirs & _).
  exists w'. split; [exact Hrun|]. split; apply Hdirs.
  - by exists [].
  - by exists ["archive"].
Defined.

(** ** Strings *)

Lemma append_cons (c : ascii) (a b : string) : String c a +:+ b = String c (a +:+ b).
Proof. reflexivity. Qed.

Lemma append_nil_l (b : string) : "" +:+ b = b.
Proof. reflexivity. Qed.

Lemma length_append (a b : string) :
  String.length (a +:+ b) = (String.length a + String.length b)%nat.
Proof.
  induction a as [|c a IH]; [done|]. rewrite append_cons. simpl. by rewrite IH.
Qed.

Lemma append_assoc (a b c : string) : (a +:+ b) +:+ c = a +:+ (b +:+ c).
Proof.
  induction a as [|x a IH]; [done|]. rewrite !append_cons. by rewrite IH.
Qed.

Lemma append_nil_r (a : string) : a +:+ "" = a.
Proof. induction a as [|x a IH]; [done|]. rewrite append_cons. by rewrite IH. Qed.

Lemma prefix_empty (s : string) : String.prefix "" s = true.
Proof. by destruct s. Qed.

Lemma startswith_spec (s pre : string) :
  startswith s pre = true ↔ ∃ rest, s = pre +:+ rest.
Proof.
  unfold startswith. revert s. induction pre as [|c pre IH]; intros s.
  - rewrite prefix_empty. split; [by exists s | done].
  - destruct s as [|c' s]; simpl.
    + split; [done | by intros [rest ?]].
    + destruct (ascii_dec c c') as [<-|Hne].
      * rewrite IH. split; intros [rest H]; exists rest.
        -- by rewrite H.
        -- rewrite append_cons in H. by inversion H.
      * split; [done | intros [rest H]; rewrite append_cons in H; inversion H; congruence].
Qed.

Lemma rev_app_append (s acc : string) :
  String.rev_app s acc = String.rev s +:+ acc.
Proof.
  unfold String.rev. revert acc. induction s as [|c s IH]; intros acc; simpl; [done|].
  rewrite (IH (String c acc)), (IH (String c "")), append_assoc. done.
Qed.

Lemma rev_append (a b : string) :
  String.rev (a +:+ b) = String.rev b +:+ String.rev a.
Proof.
  induction a as [|c a IH].
  - by rewrite append_nil_l, append_nil_r.
  - rewrite append_cons. unfold String.rev at 1 3; simpl.
    rewrite !rev_app_append, IH, append_assoc. done.
Qed.

Lemma rev_involutive (s : string) : String.rev (String.rev s) = s.
Proof.
  induction s as [|c s IH]; [done|].
  unfold String.rev at 2; simpl.
  rewrite rev_app_append, rev_append, IH. done.
Qed.

Lemma endswith_spec (s suf : string) :
  endswith s suf = true ↔ ∃ front, s = front +:+ suf.
Proof.
  unfold endswith. rewrite (startswith_spec (String.rev s) (String.rev suf)).
  split; intros [x H].
  - exists (String.rev x). apply (f_equal String.rev) in H.
    by rewrite rev_involutive, rev_append, rev_involutive in H.
  - exists (String.rev x). by rewrite H, rev_append.
Qed.

Lemma archive_name_is_archive (fp : path) (t : datetime) :
  is_archive (basename fp) (archive_name_at fp t) = true.
Proof.
  unfold is_archive, archive_name_at. apply andb_true_iff. split.
  - apply endswith_spec. exists (basename fp +:+ "_" +:+ strftime "%Y%m%d_%H%M%S" t).
    by rewrite !append_assoc.
  - apply startswith_spec. by eexists.
Qed.

Lemma archive_name_fresh (fp : path) (t : datetime) :
  archive_name_at fp t ≠ basename fp.
Proof.
  intros H. apply (f_equal String.length) in H. unfold archive_name_at in H.
  rewrite !length_append in H. simpl in H. lia.
Qed.

Lemma archive_path_not_log (fp : path) (d : dirpath) (t : datetime) :
  join d (archive_name_at fp t) ≠ fp.
Proof.
  destruct fp as [dl b]. unfold join. intros H. inversion H as [[Hd Hb]].
  by apply (archive_name_fresh (dl, b) t).
Qed.

(** ** The monad *)

Lemma bind_ok {A B} (m : IO A) (k : A → IO B) (w w1 : world) (a : A) :
  m w = (w1, Ok a) → bind m k w = k a w1.
Proof. intros H. unfold bind. by rewrite H. Qed.

Lemma bind_raise {A B} (m : IO A) (k : A → IO B) (w w1 : world) (e : exn) :
  m w = (w1, Raise e) → bind m k w = (w1, Raise e).
Proof. intros H. unfold bind. by rewrite H. Qed.

Lemma try_except_ok {A} (m : IO A) (h : exn → IO A) (w w1 : world) (a : A) :
  m w = (w1, Ok a) → try_except m h w = (w1, Ok a).
Proof. intros H. unfold try_except. by rewrite H. Qed.

Lemma try_except_raise {A} (m : IO A) (h : exn → IO A) (w w1 : world) (e : exn) :
  m w = (w1, Raise e) → try_except m h w = h e w1.
Proof. intros H. unfold try_except. by rewrite H. Qed.

(** ** What a call leaves alone *)

Lemma stable_refl (w : world) : stable w w.
Proof. by repeat split. Qed.

Lemma stable_trans (w1 w2 w3 : world) : stable w1 w2 → stable w2 w3 → stable w1 w3.
Proof.
  intros (?&?&?&?) (?&?&?&?). repeat split; congruence.
Qed.

Lemma stable_set_files (fs : gmap path file) (w : world) : stable w (set_files fs w).
Proof. by repeat split. Qed.

Lemma stable_set_console (c : list string) (w : world) : stable w (set_console c w).
Proof. by repeat split. Qed.

Create HintDb frame.

Lemma preserves_ret {A} (a : A) : preserves (ret a).
Proof. intros w w' r H. inversion H. apply stable_refl. Qed.

Lemma preserves_raise {A} (e : exn) : preserves (@raise A e).
Proof. intros w w' r H. inversion H. apply stable_refl. Qed.

Lemma preserves_lift {A} (x : result A) : preserves (lift x).
Proof. intros w w' r H. inversion H. apply stable_refl. Qed.

Lemma preserves_bind {A B} (m : IO A) (k : A → IO B) :
  preserves m → (∀ a, preserves (k a)) → preserves (bind m k).
Proof.
  intros Hm Hk w w' r. unfold bind. destruct (m w) as [w1 [a|e]] eqn:E; intros H.
  - eapply stable_trans; [eapply Hm, E | eapply Hk, H].
  - inversion H; subst. eapply Hm, E.
Qed.

Lemma preserves_try_except {A} (m : IO A) (h : exn → IO A) :
  preserves m → (∀ e, preserves (h e)) → preserves (try_except m h).
Proof.
  intros Hm Hh w w' r. unfold try_except. destruct (m w) as [w1 [a|e]] eqn:E; intros H.
  - inversion H; subst. eapply Hm, E.
  - eapply stable_trans; [eapply Hm, E | eapply Hh, H].
Qed.

Lemma preserves_try_except_OSError {A} (m : IO A) (h : exn → IO A) :
  preserves m → (∀ e, preserves (h e)) → preserves (try_except_OSError m h).
Proof.
  intros Hm Hh w w' r. unfold try_except_OSError.
  destruct (m w) as [w1 [a|[]]] eqn:E; intros H;
    try (inversion H; subst; eapply Hm, E).
  eapply stable_trans; [eapply Hm, E | eapply Hh, H].
Qed.

Lemma preserves_for_each {A} (l : list A) (body : A → IO unit) :
  (∀ x, preserves (body x)) → preserves (for_each l body).
Proof.
  intros Hb. induction l as [|x l IH]; simpl.
  - apply preserves_ret.
  - apply preserves_bind; auto.
Qed.

Ltac frame_prim :=
  let w := fresh "w" in let w' := fresh "w'" in let r := fresh "r" in
  let H := fresh "H" in
  intros w w' r H;
  repeat match type of H with
         | context [match ?x with _ => _ end] => destruct x
         | context [if ?x then _ else _] => destruct x
         end;
  inversion H; subst; repeat split.

Lemma preserves_print (s : string) : preserves (print s).
Proof. unfold print. frame_prim. Qed.

Lemma preserves_datetime_now : preserves datetime_now.
Proof. unfold datetime_now. frame_prim. Qed.

Lemma preserves_exists (p : path) : preserves (os_path_exists p).
Proof. unfold os_path_exists. frame_prim. Qed.

Lemma preserves_getsize (p : path) : preserves (os_path_getsize p).
Proof. unfold os_path_getsize. frame_prim. Qed.

Lemma preserves_getmtime (p : path) : preserves (os_path_getmtime p).
Proof. unfold os_path_getmtime. frame_prim. Qed.

Lemma preserves_listdir (d : dirpath) : preserves (os_listdir d).
Proof. unfold os_listdir. frame_prim. Qed.

Lemma preserves_remove (p : path) : preserves (os_remove p).
Proof. unfold os_remove. frame_prim. Qed.

Lemma preserves_open_rb (p : path) : preserves (open_rb p).
Proof. unfold open_rb. frame_prim. Qed.

Lemma preserves_gzip_open_wb (p : path) : preserves (gzip_open_wb p).
Proof. unfold gzip_open_wb. frame_prim. Qed.

Lemma preserves_open_w_close (p : path) : preserves (open_w_close p).
Proof. unfold open_w_close. frame_prim. Qed.

Lemma preserves_open_a (p : path) : preserves (open_a p).
Proof. unfold open_a. frame_prim. Qed.

Lemma preserves_file_write (p : path) (s : string) : preserves (file_write p s).
Proof. unfold file_write. frame_prim. Qed.

Lemma preserves_open_a_write (p : path) (s : string) : preserves (open_a_write p s).
Proof.
  unfold open_a_write. apply preserves_bind; [apply preserves_open_a|].
  intros _. apply preserves_file_write.
Qed.

Lemma preserves_copyfileobj gz (src dst : path) : preserves (copyfileobj gz src dst).
Proof. unfold copyfileobj. frame_prim. Qed.

#[export] Hint Resolve preserves_ret preserves_raise preserves_lift preserves_bind
  preserves_try_except preserves_try_except_OSError preserves_for_each
  preserves_print preserves_datetime_now preserves_exists preserves_getsize
  preserves_getmtime preserves_listdir preserves_remove preserves_open_rb
  preserves_gzip_open_wb preserves_open_w_close preserves_open_a_write
  preserves_copyfileobj : frame.

Lemma preserves_collect (self : ModelLogger) (d : dirpath) (listing : list string) :
  preserves (collect_archives self d listing).
Proof.
  induction listing as [|f rest IH]; simpl; [auto with frame|].
  destruct (endswith f ".gz"); [|done].
  destruct (file_path self) as [fp|]; [|auto with frame].
  destruct (startswith f (basename fp)); [|done].
  apply preserves_bind; [auto with frame|]. intros m.
  apply preserves_bind; [done|]. auto with frame.
Qed.

Lemma preserves_cleanup (self : ModelLogger) : preserves (_cleanup_old_archives self).
Proof.
  unfold _cleanup_old_archives. destruct (archive_dir self); [|auto with frame].
  apply preserves_bind; [auto with frame|]. intros listing.
  apply preserves_bind; [apply preserves_collect|]. intros archives.
  apply preserves_for_each. intros x. unfold remove_archive. auto with frame.
Qed.

Lemma preserves_get_archive_filename (self : ModelLogger) :
  preserves (_get_archive_filename self).
Proof.
  unfold _get_archive_filename. apply preserves_bind; [auto with frame|].
  intros t. destruct (file_path self); auto with frame.
Qed.

Lemma preserves_compress_log gz (fp ap : path) : preserves (compress_log gz fp ap).
Proof. unfold compress_log. auto 10 with frame. Qed.

Lemma preserves_rotate gz (self : ModelLogger) : preserves (_rotate_log_file gz self).
Proof.
  unfold _rotate_log_file. destruct (file_path self) as [fp|]; [|auto with frame].
  apply preserves_bind; [auto with frame|]. intros present.
  destruct (negb present); [auto with frame|].
  apply preserves_bind; [auto with frame|]. intros size.
  destruct (size >=? max_file_size self); [|auto with frame].
  apply preserves_bind; [apply preserves_get_archive_filename|]. intros n.
  apply preserves_bind; [destruct (archive_dir self); auto with frame|]. intros ap.
  apply preserves_try_except; [|auto with frame].
  apply preserves_bind; [apply preserves_compress_log|]. intros _.
  apply preserves_bind; [auto with frame|]. intros _. apply preserves_cleanup.
Qed.

Lemma preserves_write_to_file gz (self : ModelLogger) (message : string) :
  preserves (_write_to_file gz self message).
Proof.
  unfold _write_to_file. destruct (file_path self); [|auto with frame].
  apply preserves_bind; [apply preserves_rotate | auto with frame].
Qed.

(** ** System calls on a given file *)

Lemma put_file_lookup (p q : path) (bs : list byte) (w : world) :
  files (put_file p bs w) !! q
  = if decide (p = q) then Some (File bs (epoch w)) else files w !! q.
Proof. unfold put_file, set_files; cbn [files]. apply lookup_insert. Qed.

Lemma put_file_lookup_eq (p : path) (bs : list byte) (w : world) :
  files (put_file p bs w) !! p = Some (File bs (epoch w)).
Proof. rewrite put_file_lookup. by rewrite decide_True. Qed.

Lemma put_file_lookup_ne (p q : path) (bs : list byte) (w : world) :
  p ≠ q → files (put_file p bs w) !! q = files w !! q.
Proof. intros H. rewrite put_file_lookup. by rewrite decide_False. Qed.

Lemma put_file_twice (p : path) (bs bs' : list byte) (w : world) :
  put_file p bs' (put_file p bs w) = put_file p bs' w.
Proof.
  unfold put_file, set_files; cbn [files dirs epoch wall console env].
  by rewrite insert_insert_eq.
Qed.

Lemma exists_present (p : path) (f : file) (w : world) :
  files w !! p = Some f → os_path_exists p w = (w, Ok true).
Proof. intros H. unfold os_path_exists. rewrite H. reflexivity. Qed.

Lemma exists_absent (p : path) (w : world) :
  files w !! p = None → os_path_exists p w = (w, Ok false).
Proof. intros H. unfold os_path_exists. rewrite H. reflexivity. Qed.

Lemma getsize_present (p : path) (f : file) (w : world) :
  files w !! p = Some f → os_path_getsize p w = (w, Ok (file_size f)).
Proof. intros H. unfold os_path_getsize. rewrite H. reflexivity. Qed.

Lemma open_w_close_ok (p : path) (w : world) :
  can_truncate w p → open_w_close p w = (put_file p [] w, Ok tt).
Proof.
  intros [Hd Hf]. unfold open_w_close, dir_exists.
  by rewrite bool_decide_eq_true_2, Hf.
Qed.

Lemma open_w_close_fails (p : path) (w : world) :
  ¬ can_truncate w p → open_w_close p w = (w, Raise OSError).
Proof.
  intros H. unfold open_w_close, dir_exists.
  destruct (decide (dirname p ∈ dirs w)) as [Hd|Hd].
  - rewrite bool_decide_eq_true_2 by done.
    destruct (truncate_fails (env w) p) eqn:Hf; [done|].
    exfalso. apply H. by split.
  - by rewrite bool_decide_eq_false_2.
Qed.

Lemma open_a_ok (p : path) (w : world) :
  can_append w p →
  open_a p w = (match files w !! p with Some _ => w | None => put_file p [] w end, Ok tt).
Proof.
  intros [Hd Hf]. unfold open_a, dir_exists.
  rewrite bool_decide_eq_true_2, Hf by done. by destruct (files w !! p).
Qed.

Lemma open_a_fails (p : path) (w : world) :
  ¬ can_append w p → open_a p w = (w, Raise OSError).
Proof.
  intros Hno. unfold open_a, dir_exists.
  destruct (decide (dirname p ∈ dirs w)) as [Hd|Hd];
    [rewrite bool_decide_eq_true_2 by done | by rewrite bool_decide_eq_false_2].
  destruct (append_fails (env w) p) eqn:E; [done|].
  exfalso. apply Hno. by split.
Qed.

Lemma open_a_result (p : path) (w w1 : world) :
  open_a p w = (w1, Ok tt) →
  can_append w p ∧
  w1 = match files w !! p with Some _ => w | None => put_file p [] w end.
Proof.
  intros H. destruct (decide (dirname p ∈ dirs w)) as [Hd|Hd].
  - destruct (append_fails (env w) p) eqn:E.
    + rewrite open_a_fails in H by (intros [_ ?]; congruence). discriminate H.
    + rewrite (open_a_ok p w (conj Hd E)) in H. injection H as <-. by split.
  - rewrite open_a_fails in H by (intros [? _]; done). discriminate H.
Qed.

Lemma file_write_old (p : path) (bs : list byte) (w : world) :
  match files (match files w !! p with Some _ => w | None => put_file p bs w end) !! p with
  | Some f => data f
  | None => []
  end
  = match files w !! p with Some f => data f | None => bs end.
Proof.
  destruct (files w !! p) as [f|] eqn:E; [by rewrite E|]. by rewrite put_file_lookup_eq.
Qed.

Lemma put_after_open (p : path) (bs : list byte) (w : world) :
  put_file p bs (match files w !! p with Some _ => w | None => put_file p [] w end)
  = put_file p bs w.
Proof. destruct (files w !! p); [done|]. apply put_file_twice. Qed.

Lemma open_a_write_ok (p : path) (s : string) (w : world) :
  can_write w p s →
  open_a_write p s w
  = (put_file p (match files w !! p with Some f => data f | None => [] end ++ encode s) w,
     Ok tt).
Proof.
  intros (Happ & Henc & Hwr). unfold open_a_write.
  rewrite (bind_ok _ _ _ _ _ (open_a_ok p w Happ)). unfold file_write.
  set (w1 := match files w !! p with Some _ => w | None => put_file p [] w end).
  assert (He : env w1 = env w) by (unfold w1; by destruct (files w !! p)).
  rewrite He, Henc, Hwr. unfold w1. by rewrite file_write_old, put_after_open.
Qed.

Lemma open_a_write_result (p : path) (s : string) (w w' : world) :
  open_a_write p s w = (w', Ok tt) →
  w' = put_file p (match files w !! p with Some f => data f | None => [] end ++ encode s) w.
Proof.
  unfold open_a_write, bind.
  destruct (open_a p w) as [w1 [[]|e]] eqn:Eo; [|discriminate].
  apply open_a_result in Eo as [_ ->]. unfold file_write.
  destruct (encode_fails _ s); [discriminate|].
  destruct (write_fails _ p); [discriminate|].
  intros [= <-]. by rewrite file_write_old, put_after_open.
Qed.

Lemma get_archive_filename_ok (self : ModelLogger) (fp : path) (w : world) :
  file_path self = Some fp →
  _get_archive_filename self w = (w, Ok (archive_name_at fp (wall w))).
Proof. intros H. unfold _get_archive_filename, bind, datetime_now. by rewrite H. Qed.

(** ** Rotation *)

Lemma rotate_no_path gz (self : ModelLogger) (w : world) :
  file_path self = None → _rotate_log_file gz self w = (w, Ok tt).
Proof. intros H. unfold _rotate_log_file. by rewrite H. Qed.

Lemma rotate_absent gz (self : ModelLogger) (fp : path) (w : world) :
  file_path self = Some fp → files w !! fp = None →
  _rotate_log_file gz self w = (w, Ok tt).
Proof.
  intros Hfp Hf. unfold _rotate_log_file. rewrite Hfp.
  by rewrite (bind_ok _ _ _ _ _ (exists_absent _ _ Hf)).
Qed.

Lemma rotate_small gz (self : ModelLogger) (fp : path) (f : file) (w : world) :
  file_path self = Some fp → files w !! fp = Some f →
  file_size f < max_file_size self →
  _rotate_log_file gz self w = (w, Ok tt).
Proof.
  intros Hfp Hf Hlt. unfold _rotate_log_file. rewrite Hfp.
  rewrite (bind_ok _ _ _ _ _ (exists_present _ _ _ Hf)). cbn [negb].
  rewrite (bind_ok _ _ _ _ _ (getsize_present _ _ _ Hf)).
  replace (file_size f >=? max_file_size self) with false; [done|].
  symmetry. rewrite Z.geb_leb. apply Z.leb_gt. lia.
Qed.

Section rotation_due.
Variable gz : list byte → list byte.
Variables (self : ModelLogger) (fp : path) (d : dirpath) (f : file) (w : world).
Hypothesis Hfp : file_path self = Some fp.
Hypothesis Had : archive_dir self = Some d.
Hypothesis Hf : files w !! fp = Some f.
Hypothesis Hdue : max_file_size self <= file_size f.

Local Notation "'ap'" := (join d (archive_name_at fp (wall w))).
Local Notation "'report'" :=
  (λ e, print ("Error during log rotation: " +:+ exn_str e)).

Lemma rotate_due_unfold :
  _rotate_log_file gz self w
  = try_except (compress_log gz fp ap ;; open_w_close fp ;; _cleanup_old_archives self)
      report w.
Proof.
  unfold _rotate_log_file. rewrite Hfp.
  rewrite (bind_ok _ _ _ _ _ (exists_present _ _ _ Hf)). cbn [negb].
  rewrite (bind_ok _ _ _ _ _ (getsize_present _ _ _ Hf)).
  replace (file_size f >=? max_file_size self) with true
    by (symmetry; rewrite Z.geb_leb; apply Z.leb_le; lia).
  rewrite (bind_ok _ _ _ _ _ (get_archive_filename_ok _ _ _ Hfp)).
  rewrite Had. unfold bind at 1, ret at 1. reflexivity.
Qed.

Lemma compress_log_ok :
  can_compress w fp ap →
  compress_log gz fp ap w = (put_file ap (gz (data f)) w, Ok tt).
Proof.
  intros (Hr & Hd & Hc & Hcp). unfold compress_log.
  assert (H1 : open_rb fp w = (w, Ok tt)) by (unfold open_rb; by rewrite Hf, Hr).
  rewrite (bind_ok _ _ _ _ _ H1).
  assert (H2 : gzip_open_wb ap w = (put_file ap [] w, Ok tt)).
  { unfold gzip_open_wb, dir_exists. by rewrite bool_decide_eq_true_2, Hc. }
  rewrite (bind_ok _ _ _ _ _ H2).
  unfold copyfileobj. cbn [env put_file set_files]. rewrite Hcp.
  change (files _ !! fp) with (files (put_file ap [] w) !! fp).
  rewrite put_file_lookup_ne by apply archive_path_not_log.
  rewrite Hf. fold (put_file ap [] w). by rewrite put_file_twice.
Qed.

Lemma compress_log_fails :
  ¬ can_compress w fp ap →
  ∃ w1, compress_log gz fp ap w = (w1, Raise OSError) ∧
        files w1 !! fp = Some f ∧ console w1 = console w.
Proof.
  intros Hno. unfold compress_log, bind at 1, open_rb. rewrite Hf.
  destruct (read_fails (env w) fp) eqn:Hr; [by exists w|].
  unfold bind, gzip_open_wb, dir_exists.
  destruct (decide (dirname ap ∈ dirs w)) as [Hd|Hd];
    [rewrite bool_decide_eq_true_2 by done | rewrite bool_decide_eq_false_2 by done;
     by exists w].
  destruct (create_fails (env w) ap) eqn:Hc; [by exists w|]. cbn [negb orb].
  unfold copyfileobj. cbn [env put_file set_files].
  destruct (copy_fails (env w) ap) as [junk|] eqn:Hcp.
  - eexists. split; [reflexivity|]. split; [|reflexivity].
    change (files (put_file ap junk (put_file ap [] w)) !! fp = Some f).
    by rewrite !put_file_lookup_ne by apply archive_path_not_log.
  - exfalso. apply Hno. by repeat split.
Qed.

Lemma rotate_compress_fails :
  ¬ can_compress w fp ap →
  ∃ w1, _rotate_log_file gz self w = (w1, Ok tt) ∧
        files w1 !! fp = Some f ∧
        console w1 = console w ++ ["Error during log rotation: OSError"].
Proof.
  intros Hno. destruct (compress_log_fails Hno) as (w1 & Hrun & Hlive & Hcon).
  rewrite rotate_due_unfold.
  rewrite (try_except_raise _ _ _ _ _ (bind_raise _ _ _ _ _ Hrun)).
  eexists. split; [reflexivity|]. cbn [files console set_console].
  by rewrite Hcon.
Qed.

Lemma rotate_truncate_fails :
  can_compress w fp ap → ¬ can_truncate w fp →
  ∃ w1, _rotate_log_file gz self w = (w1, Ok tt) ∧
        files w1 !! fp = Some f ∧
        files w1 !! ap = Some (File (gz (data f)) (epoch w)) ∧
        console w1 = console w ++ ["Error during log rotation: OSError"].
Proof.
  intros Hc Hno. rewrite rotate_due_unfold.
  assert (Hno' : ¬ can_truncate (put_file ap (gz (data f)) w) fp) by exact Hno.
  rewrite (try_except_raise _ _ _ (put_file ap (gz (data f)) w) OSError).
  2:{ rewrite (bind_ok _ _ _ _ _ (compress_log_ok Hc)).
      by rewrite (bind_raise _ _ _ _ _ (open_w_close_fails _ _ Hno')). }
  eexists. split; [reflexivity|]. cbn [console set_console].
  change (files (set_console _ ?x)) with (files x).
  rewrite put_file_lookup_ne by apply archive_path_not_log.
  by rewrite put_file_lookup_eq.
Qed.

Lemma rotate_cleared :
  can_compress w fp ap → can_truncate w fp →
  _rotate_log_file gz self w
  = try_except (_cleanup_old_archives self) report
      (put_file fp [] (put_file ap (gz (data f)) w)).
Proof.
  intros Hc Ht. rewrite rotate_due_unfold.
  assert (Ht' : can_truncate (put_file ap (gz (data f)) w) fp) by exact Ht.
  unfold try_except.
  rewrite (bind_ok _ _ _ _ _ (compress_log_ok Hc)).
  by rewrite (bind_ok _ _ _ _ _ (open_w_close_ok _ _ Ht')).
Qed.
End rotation_due.

(** ** Sorting newest first *)

Lemma insert_newest_perm (x : path * Z) (l : list (path * Z)) :
  insert_newest x l ≡ₚ x :: l.
Proof.
  induction l as [|y l IH]; simpl; [done|].
  destruct (snd y <=? snd x); [done|].
  rewrite IH. apply Permutation_swap.
Qed.

Lemma sort_newest_first_perm (l : list (path * Z)) : sort_newest_first l ≡ₚ l.
Proof.
  induction l as [|x l IH]; simpl; [done|].
  by rewrite insert_newest_perm, IH.
Qed.

Lemma insert_newest_sorted (x : path * Z) (l : list (path * Z)) :
  newest_first l → newest_first (insert_newest x l).
Proof.
  unfold newest_first. induction l as [|y l IH]; intros Hs; simpl.
  - repeat constructor.
  - apply StronglySorted_inv in Hs as [Hl Hy].
    destruct (snd y <=? snd x) eqn:E.
    + apply Z.leb_le in E. constructor; [by constructor|].
      constructor; [done|]. eapply Forall_impl; [exact Hy|].
      simpl. intros z Hz. lia.
    + apply Z.leb_gt in E. constructor; [by apply IH|].
      rewrite insert_newest_perm. constructor; [lia | done].
Qed.

Lemma sort_newest_first_sorted (l : list (path * Z)) :
  newest_first (sort_newest_first l).
Proof.
  induction l as [|x l IH]; simpl; [constructor | by apply insert_newest_sorted].
Qed.

Lemma slice_from_nonneg {A} (k : Z) (l : list A) :
  0 <= k → slice_from k l = drop (Z.to_nat k) l.
Proof. intros H. unfold slice_from. by rewrite (proj2 (Z.ltb_ge k 0)). Qed.

Lemma slice_from_sublist {A} (k : Z) (l : list A) (x : A) :
  x ∈ slice_from k l → x ∈ l.
Proof.
  unfold slice_from. destruct (k <? 0); intros H;
    by eapply subseteq_drop.
Qed.

(** ** Listing a directory *)

Lemma elem_of_dir_entries (w : world) (d : dirpath) (f : string) :
  f ∈ dir_entries w d ↔ is_Some (files w !! join d f).
Proof.
  unfold dir_entries, join. rewrite list_elem_of_omap. split.
  - intros ([[d' f'] fl] & Hin & Hg). cbn [fst snd] in Hg.
    destruct (decide (d' = d)) as [->|]; [|done]. injection Hg as ->.
    apply elem_of_map_to_list in Hin. by exists fl.
  - intros [fl Hfl]. exists ((d, f), fl). split.
    + by apply elem_of_map_to_list.
    + cbn [fst snd]. by rewrite decide_True.
Qed.

Lemma NoDup_omap_on {A B} (g : A → option B) (l : list A) :
  NoDup l →
  (∀ x y z, x ∈ l → y ∈ l → g x = Some z → g y = Some z → x = y) →
  NoDup (omap g l).
Proof.
  induction 1 as [|x l Hx Hl IH]; intros Hinj; simpl; [constructor|].
  assert (IH' : NoDup (omap g l)).
  { apply IH. intros a b z Ha Hb. apply Hinj; by right. }
  destruct (g x) as [z|] eqn:E; [|done].
  constructor; [|done]. rewrite list_elem_of_omap. intros (y & Hy & Hgy).
  assert (x = y) as -> by (eapply Hinj; [by left | by right | done..]).
  done.
Qed.

Lemma NoDup_dir_entries (w : world) (d : dirpath) : NoDup (dir_entries w d).
Proof.
  unfold dir_entries. apply NoDup_omap_on; [apply NoDup_map_to_list|].
  intros [[d1 f1] fl1] [[d2 f2] fl2] z H1 H2. cbn [fst snd].
  destruct (decide (d1 = d)) as [->|]; [|done].
  destruct (decide (d2 = d)) as [->|]; [|done].
  intros [= ->] [= ->].
  apply elem_of_map_to_list in H1, H2. congruence.
Qed.

(** ** Gathering the archives *)

Lemma elem_of_archive_entries (base : string) (d : dirpath) (w : world)
    (listing : list string) (e : path * Z) :
  e ∈ archive_entries base d w listing ↔
  ∃ f fl, f ∈ listing ∧ is_archive base f = true ∧
          files w !! join d f = Some fl ∧ e = (join d f, mtime fl).
Proof.
  unfold archive_entries. rewrite list_elem_of_omap. split.
  - intros (f & Hin & Hg). destruct (is_archive base f) eqn:E; [|done].
    destruct (files w !! join d f) as [fl|] eqn:Efl; [|done].
    injection Hg as <-. by exists f, fl.
  - intros (f & fl & Hin & Ha & Hfl & ->). exists f. split; [done|].
    by rewrite Ha, Hfl.
Qed.

Lemma NoDup_archive_entries (base : string) (d : dirpath) (w : world)
    (listing : list string) :
  NoDup listing → NoDup (archive_entries base d w listing).*1.
Proof.
  intros Hnd. unfold archive_entries. rewrite list_fmap_omap.
  apply NoDup_omap_on; [done|].
  intros f1 f2 p _ _ H1 H2.
  destruct (is_archive base f1); [|by simplify_eq/=].
  destruct (is_archive base f2); [|by simplify_eq/=].
  destruct (files w !! join d f1); [|by simplify_eq/=].
  destruct (files w !! join d f2); [|by simplify_eq/=].
  unfold join in *. by simplify_eq/=.
Qed.

Lemma collect_archives_ok (self : ModelLogger) (fp : path) (d : dirpath)
    (listing : list string) (w : world) :
  file_path self = Some fp →
  (∀ f, f ∈ listing → is_Some (files w !! join d f)) →
  collect_archives self d listing w
  = (w, Ok (archive_entries (basename fp) d w listing)).
Proof.
  intros Hfp. induction listing as [|f rest IH]; intros Hall; [done|].
  assert (IH' := IH (λ g Hg, Hall g (list_elem_of_further _ _ _ Hg))).
  cbn [collect_archives]. unfold archive_entries at 1. cbn [omap list_omap].
  fold (archive_entries (basename fp) d w rest). unfold is_archive at 1.
  destruct (endswith f ".gz"); [|exact IH']. rewrite Hfp.
  destruct (startswith f (basename fp)); [|exact IH']. cbn [andb].
  destruct (Hall f (list_elem_of_here _ _)) as [fl Hfl]. rewrite Hfl. cbn [fmap option_fmap option_map].
  assert (Hm : os_path_getmtime (join d f) w = (w, Ok (mtime fl))).
  { unfold os_path_getmtime. by rewrite Hfl. }
  rewrite (bind_ok _ _ _ _ _ Hm). by rewrite (bind_ok _ _ _ _ _ IH').
Qed.

(** Whatever happens, the loop leaves the world alone, and every entry
    it returns is an archive of the log taken from the listing. *)
Lemma collect_archives_sound (self : ModelLogger) (d : dirpath)
    (listing : list string) (w w' : world) (r : result (list (path * Z))) :
  collect_archives self d listing w = (w', r) →
  w' = w ∧
  ∀ l, r = Ok l → ∀ e, e ∈ l →
    ∃ f fp, e.1 = join d f ∧ f ∈ listing ∧ file_path self = Some fp ∧
            is_archive (basename fp) f = true.
Proof.
  revert w' r. induction listing as [|f rest IH]; intros w' r; cbn [collect_archives].
  - intros [= <- <-]. split; [done|]. intros l [= <-] e He. by apply elem_of_nil in He.
  - assert (Hskip : collect_archives self d rest w = (w', r) →
              w' = w ∧ ∀ l, r = Ok l → ∀ e, e ∈ l →
                ∃ f0 fp, e.1 = join d f0 ∧ f0 ∈ f :: rest ∧ file_path self = Some fp ∧
                         is_archive (basename fp) f0 = true).
    { intros H. destruct (IH _ _ H) as [-> Hl]. split; [done|].
      intros l Hr e He. destruct (Hl l Hr e He) as (f0 & fp & ? & ? & ? & ?).
      exists f0, fp. repeat split; try done. by right. }
    destruct (endswith f ".gz") eqn:Egz; [|exact Hskip].
    destruct (file_path self) as [fp|] eqn:Hfp.
    2:{ intros [= <- <-]. split; [done|]. by intros l. }
    destruct (startswith f (basename fp)) eqn:Est; [|exact Hskip].
    unfold bind at 1, os_path_getmtime.
    destruct (files w !! join d f) as [fl|].
    2:{ intros [= <- <-]. split; [done|]. by intros l. }
    unfold bind. destruct (collect_archives self d rest w) as [w1 [l1|e1]] eqn:Erest.
    + destruct (IH _ _ eq_refl) as [-> Hl]. intros [= <- <-]. split; [done|].
      intros l [= <-] e He. apply elem_of_cons in He as [->|He].
      * exists f, fp. repeat split; try done; [by left|].
        unfold is_archive. by rewrite Egz, Est.
      * destruct (Hl l1 eq_refl e He) as (f0 & fp0 & ? & ? & ? & ?).
        exists f0, fp0. repeat split; try done. by right.
    + destruct (IH _ _ eq_refl) as [-> _]. intros [= <- <-]. split; [done|]. by intros l.
Qed.

(** ** Removing archives *)

Lemma remove_archive_run (e : path * Z) (w : world) :
  ∃ w', remove_archive e w = (w', Ok tt) ∧ stable w w' ∧
        ∀ p, files w' !! p
             = if bool_decide (p = e.1) && negb (remove_fails (env w) p)
               then None else files w !! p.
Proof.
  unfold remove_archive, try_except_OSError, os_remove.
  destruct (files w !! e.1) as [fl|] eqn:Efl.
  - destruct (remove_fails (env w) e.1) eqn:Ef.
    + eexists. split; [reflexivity|]. split; [apply stable_set_console|].
      intros p. cbn [files set_console]. case_bool_decide as Hp; [|done].
      subst p. by rewrite Ef.
    + eexists. split; [reflexivity|]. split; [apply stable_set_files|].
      intros p. cbn [files set_files]. case_bool_decide as Hp.
      * subst p. rewrite Ef. cbn. apply lookup_delete_eq.
      * cbn. by apply lookup_delete_ne.
  - eexists. split; [reflexivity|]. split; [apply stable_set_console|].
    intros p. cbn [files set_console]. case_bool_decide as Hp; [|done].
    subst p. rewrite Efl. by destruct (negb _).
Qed.

Lemma for_each_remove_run (l : list (path * Z)) (w : world) :
  ∃ w', for_each l remove_archive w = (w', Ok tt) ∧ stable w w' ∧
        ∀ p, files w' !! p
             = if bool_decide (p ∈ l.*1) && negb (remove_fails (env w) p)
               then None else files w !! p.
Proof.
  revert w. induction l as [|e l IH]; intros w.
  - exists w. split; [done|]. split; [apply stable_refl|]. intros p.
    rewrite bool_decide_eq_false_2; [done|]. apply not_elem_of_nil.
  - destruct (remove_archive_run e w) as (w1 & Hrun1 & Hst1 & Hfiles1).
    destruct (IH w1) as (w2 & Hrun2 & Hst2 & Hfiles2).
    exists w2. split; [|split; [by eapply stable_trans|]].
    + cbn [for_each]. by rewrite (bind_ok _ _ _ _ _ Hrun1).
    + intros p. rewrite Hfiles2, Hfiles1.
      destruct Hst1 as (_ & -> & _).
      rewrite fmap_cons.
      destruct (decide (p = e.1)) as [->|Hne].
      * rewrite (bool_decide_eq_true_2 (e.1 ∈ e.1 :: l.*1)) by (by left).
        rewrite (bool_decide_eq_true_2 (e.1 = e.1)) by done.
        destruct (negb (remove_fails (env w) e.1)); cbn; [by destruct (bool_decide _)|].
        by rewrite andb_false_r.
      * rewrite (bool_decide_eq_false_2 (p = e.1)) by done. cbn [andb].
        destruct (decide (p ∈ l.*1)) as [Hin|Hin].
        -- rewrite !bool_decide_eq_true_2; [done | by right | done].
        -- rewrite !bool_decide_eq_false_2; [done | | done].
           intros [?|?]%elem_of_cons; done.
Qed.

(** ** Pruning *)

Lemma listdir_ok (d : dirpath) (w : world) :
  d ∈ dirs w → listdir_fails (env w) d = false →
  os_listdir d w = (w, Ok (dir_entries w d)).
Proof.
  intros Hd Hf. unfold os_listdir, dir_exists.
  by rewrite bool_decide_eq_true_2, Hf.
Qed.

Lemma listdir_result (d : dirpath) (w w' : world) (r : result (list string)) :
  os_listdir d w = (w', r) → w' = w ∧ ∀ l, r = Ok l → l = dir_entries w d.
Proof.
  unfold os_listdir.
  destruct (negb (dir_exists w d) || listdir_fails (env w) d); intros [= <- <-];
    (split; [done|]); [done | by intros l [= <-]].
Qed.

(** With the archive directory listed, [_cleanup_old_archives] removes
    the tail of the archives sorted newest first. *)
Lemma cleanup_run (self : ModelLogger) (fp : path) (d : dirpath) (w : world) :
  file_path self = Some fp → archive_dir self = Some d →
  d ∈ dirs w → listdir_fails (env w) d = false →
  _cleanup_old_archives self w
  = for_each
      (slice_from (backup_count self)
         (sort_newest_first (archive_entries (basename fp) d w (dir_entries w d))))
      remove_archive w.
Proof.
  intros Hfp Had Hd Hl. unfold _cleanup_old_archives. rewrite Had.
  rewrite (bind_ok _ _ _ _ _ (listdir_ok _ _ Hd Hl)).
  rewrite (bind_ok _ _ _ _ _ (collect_archives_ok self fp d _ w Hfp
             (λ f Hf, proj1 (elem_of_dir_entries w d f) Hf))).
  reflexivity.
Qed.

(** A file that goes missing in a pruning was an archive of the log in
    the archive directory; every other file is as it was. *)
Lemma cleanup_removes_only_archives (self : ModelLogger) (w w' : world)
    (r : result unit) (p : path) :
  _cleanup_old_archives self w = (w', r) →
  files w' !! p = files w !! p ∨
  (files w' !! p = None ∧
   ∃ fp, file_path self = Some fp ∧ archive_dir self = Some (dirname p) ∧
         is_archive (basename fp) (basename p) = true).
Proof.
  unfold _cleanup_old_archives. destruct (archive_dir self) as [d|] eqn:Had.
  2:{ intros [= <- <-]. by left. }
  unfold bind at 1. destruct (os_listdir d w) as [w1 [listing|e]] eqn:El.
  2:{ apply listdir_result in El as [-> _]. intros [= <- <-]. by left. }
  apply listdir_result in El as [-> _].
  unfold bind. destruct (collect_archives self d listing w) as [w2 [l|e]] eqn:Ec.
  2:{ apply collect_archives_sound in Ec as [-> _]. intros [= <- <-]. by left. }
  apply collect_archives_sound in Ec as [-> Hl]. specialize (Hl l eq_refl).
  intros Hrun.
  destruct (for_each_remove_run (slice_from (backup_count self) (sort_newest_first l)) w)
    as (w3 & Hrun3 & _ & Hfiles).
  rewrite Hrun3 in Hrun. injection Hrun as <- <-.
  rewrite Hfiles. case_bool_decide as Hin; [|by left].
  destruct (negb (remove_fails (env w) p)); [|by left]. right. split; [done|].
  apply list_elem_of_fmap in Hin as (e & -> & He).
  apply slice_from_sublist in He. rewrite sort_newest_first_perm in He.
  destruct (Hl e He) as (f0 & fp & Hp & _ & Hfp & Harch).
  exists fp. rewrite Hp. by repeat split.
Qed.

(** The archives of the log that are on disk, as the listing loop sees
    them. *)
Lemma archive_entries_paths (base : string) (d : dirpath) (w : world) (p : path) :
  p ∈ (archive_entries base d w (dir_entries w d)).*1 ↔
  is_Some (files w !! p) ∧ dirname p = d ∧ is_archive base (basename p) = true.
Proof.
  rewrite list_elem_of_fmap. split.
  - intros (e & -> & He). apply elem_of_archive_entries in He
      as (f & fl & _ & Ha & Hfl & ->). cbn [fst]. by repeat split; [exists fl|..].
  - intros ([fl Hfl] & Hd & Ha). destruct p as [d' f]. cbn in Hd, Ha. subst d'.
    exists ((d, f), mtime fl). split; [done|].
    apply elem_of_archive_entries. exists f, fl. repeat split; try done.
    apply elem_of_dir_entries. by exists fl.
Qed.

Lemma elem_of_archives_in (base : string) (d : dirpath) (w : world) (p : path) (fl : file) :
  archives_in base d w !! p = Some fl ↔
  files w !! p = Some fl ∧ dirname p = d ∧ is_archive base (basename p) = true.
Proof. unfold archives_in. rewrite map_lookup_filter_Some. by destruct p. Qed.

Lemma size_bounded_by_list (m : gmap path file) (l : list path) :
  NoDup l → (∀ p, is_Some (m !! p) → p ∈ l) → (size m ≤ length l)%nat.
Proof.
  intros Hnd Hsub. rewrite <- size_dom, <- (size_list_to_set (C:=gset path) l Hnd).
  apply subseteq_size. intros p Hp. apply elem_of_list_to_set, Hsub.
  by apply elem_of_dom.
Qed.

Lemma sorted_archives_paths (base : string) (d : dirpath) (w : world) (p : path) :
  p ∈ (sorted_archives base d w).*1 ↔
  is_Some (files w !! p) ∧ dirname p = d ∧ is_archive base (basename p) = true.
Proof.
  unfold sorted_archives. rewrite <- archive_entries_paths.
  by rewrite (fmap_Permutation fst _ _ (sort_newest_first_perm _)).
Qed.

Lemma sorted_archives_NoDup (base : string) (d : dirpath) (w : world) :
  NoDup (sorted_archives base d w).*1.
Proof.
  unfold sorted_archives.
  rewrite (fmap_Permutation fst _ _ (sort_newest_first_perm _)).
  apply NoDup_archive_entries, NoDup_dir_entries.
Qed.

Lemma sorted_archives_split (base : string) (d : dirpath) (w : world) (n : nat) :
  (sorted_archives base d w).*1
  = (take n (sorted_archives base d w)).*1 ++ (drop n (sorted_archives base d w)).*1.
Proof. by rewrite <- fmap_app, take_drop. Qed.

(** The outcome of a pruning that could list the archive directory. *)
Lemma cleanup_outcome (self : ModelLogger) (fp : path) (d : dirpath) (w : world) :
  file_path self = Some fp → archive_dir self = Some d →
  d ∈ dirs w → listdir_fails (env w) d = false →
  0 <= backup_count self →
  ∃ w', _cleanup_old_archives self w = (w', Ok tt) ∧ stable w w' ∧
        ∀ p, files w' !! p
             = if bool_decide (p ∈ (drop (Z.to_nat (backup_count self))
                                      (sorted_archives (basename fp) d w)).*1)
                  && negb (remove_fails (env w) p)
               then None else files w !! p.
Proof.
  intros Hfp Had Hd Hl Hbc.
  destruct (for_each_remove_run
              (drop (Z.to_nat (backup_count self)) (sorted_archives (basename fp) d w)) w)
    as (w' & Hrun & Hst & Hfiles).
  exists w'. split; [|by split].
  rewrite (cleanup_run self fp d w Hfp Had Hd Hl).
  by rewrite slice_from_nonneg.
Qed.

(** C5: pruning a listed archive directory with a non-negative
    [backup_count].  The candidates are exactly the files of the
    directory whose name ends with .gz and starts with the log's base
    name, each with its modification time; they are ordered newest
    first; the first [backup_count] of them are kept, every later one is
    removed (unless its own removal fails), and no file outside the
    candidates is touched. *)
Theorem cleanup_prunes_oldest (self : ModelLogger) (fp : path) (d : dirpath) (w : world) :
  file_path self = Some fp → archive_dir self = Some d →
  d ∈ dirs w → listdir_fails (env w) d = false →
  0 <= backup_count self →
  ∃ (sorted : list (path * Z)) (w' : world),
    _cleanup_old_archives self w = (w', Ok tt) ∧
    (∀ p, p ∈ sorted.*1 ↔
          is_Some (files w !! p) ∧ dirname p = d ∧
          endswith (basename p) ".gz" = true ∧
          startswith (basename p) (basename fp) = true) ∧
    NoDup sorted.*1 ∧
    (∀ p m, (p, m) ∈ sorted → ∃ fl, files w !! p = Some fl ∧ m = mtime fl) ∧
    newest_first sorted ∧
    (length (take (Z.to_nat (backup_count self)) sorted)
       ≤ Z.to_nat (backup_count self))%nat ∧
    (∀ p, p ∈ (take (Z.to_nat (backup_count self)) sorted).*1 →
          files w' !! p = files w !! p) ∧
    (∀ p, p ∈ (drop (Z.to_nat (backup_count self)) sorted).*1 →
          remove_fails (env w) p = false → files w' !! p = None) ∧
    (∀ p, p ∉ sorted.*1 → files w' !! p = files w !! p).
Proof.
  intros Hfp Had Hd Hl Hbc.
  destruct (cleanup_outcome self fp d w Hfp Had Hd Hl Hbc) as (w' & Hrun & _ & Hfiles).
  set (n := Z.to_nat (backup_count self)) in *.
  exists (sorted_archives (basename fp) d w), w'. split; [exact Hrun|].
  split.
  { intros p. rewrite sorted_archives_paths.
    unfold is_archive. rewrite andb_true_iff. tauto. }
  split; [apply sorted_archives_NoDup|]. split.
  { intros p m Hin. unfold sorted_archives in Hin.
    rewrite sort_newest_first_perm in Hin.
    apply elem_of_archive_entries in Hin as (f & fl & _ & _ & Hfl & [= -> ->]).
    by exists fl. }
  split; [apply sort_newest_first_sorted|]. split.
  { rewrite length_take. lia. }
  split.
  { intros p Hp. rewrite Hfiles. rewrite bool_decide_eq_false_2; [done|].
    intros Hp'. pose proof (sorted_archives_NoDup (basename fp) d w) as Hnd.
    rewrite (sorted_archives_split _ _ _ n) in Hnd.
    apply NoDup_app in Hnd as (_ & Hdisj & _). by apply (Hdisj p). }
  split.
  { intros p Hp Hrm. rewrite Hfiles, Hrm. by rewrite bool_decide_eq_true_2. }
  intros p Hp. rewrite Hfiles. rewrite bool_decide_eq_false_2; [done|].
  intros Hp'. apply Hp. rewrite (sorted_archives_split _ _ _ n).
  apply elem_of_app. by right.
Qed.

(** After a pruning in which no removal fails, at most [backup_count]
    archives of the log are left. *)
Lemma cleanup_bounds_count (self : ModelLogger) (fp : path) (d : dirpath) (w : world) :
  file_path self = Some fp → archive_dir self = Some d →
  d ∈ dirs w → listdir_fails (env w) d = false →
  (∀ p, remove_fails (env w) p = false) →
  0 <= backup_count self →
  ∃ w', _cleanup_old_archives self w = (w', Ok tt) ∧ stable w w' ∧
        (Z.of_nat (archive_count (basename fp) d w') <= backup_count self).
Proof.
  intros Hfp Had Hd Hl Hrm Hbc.
  destruct (cleanup_outcome self fp d w Hfp Had Hd Hl Hbc) as (w' & Hrun & Hst & Hfiles).
  exists w'. split; [exact Hrun|]. split; [exact Hst|].
  set (n := Z.to_nat (backup_count self)) in *.
  set (sorted := sorted_archives (basename fp) d w) in *.
  assert (Hle : (archive_count (basename fp) d w' ≤ length (take n sorted).*1)%nat).
  { apply size_bounded_by_list.
    - pose proof (sorted_archives_NoDup (basename fp) d w) as Hnd.
      rewrite (sorted_archives_split _ _ _ n) in Hnd.
      by apply NoDup_app in Hnd as (? & _).
    - intros p [fl Hp]. apply elem_of_archives_in in Hp as (Hp & Hdir & Harch).
      rewrite Hfiles, Hrm in Hp. cbn [negb] in Hp. rewrite andb_true_r in Hp.
      case_bool_decide as Hin; [done|].
      assert (Hs : p ∈ sorted.*1).
      { apply sorted_archives_paths. split; [by exists fl | done]. }
      unfold sorted in Hs. rewrite (sorted_archives_split _ _ _ n) in Hs.
      apply elem_of_app in Hs as [?|?]; done. }
  rewrite length_fmap, length_take in Hle. lia.
Qed.

(** ** Rotation followed by pruning *)

(** The guarded pruning at the end of a rotation always returns; a file
    that is gone afterwards was an archive of the log. *)
Lemma cleanup_guarded (self : ModelLogger) (h : exn → string) (w : world) :
  ∃ w', try_except (_cleanup_old_archives self) (λ e, print (h e)) w = (w', Ok tt) ∧
        stable w w' ∧
        ∀ p, files w' !! p = files w !! p ∨
             (files w' !! p = None ∧
              ∃ fp, file_path self = Some fp ∧ archive_dir self = Some (dirname p) ∧
                    is_archive (basename fp) (basename p) = true).
Proof.
  unfold try_except.
  destruct (_cleanup_old_archives self w) as [w1 [[]|e]] eqn:E.
  - exists w1. split; [done|]. split; [by eapply preserves_cleanup|].
    intros p. by eapply cleanup_removes_only_archives.
  - eexists. split; [reflexivity|].
    split; [eapply stable_trans; [by eapply preserves_cleanup | apply stable_set_console]|].
    intros p. cbn [files set_console]. by eapply cleanup_removes_only_archives.
Qed.

Lemma log_apart_not_archive (fp : path) (d : dirpath) :
  log_apart fp d →
  ¬ (d = dirname fp ∧ is_archive (basename fp) (basename fp) = true).
Proof.
  intros [Hd|Hgz] [Hd' Ha]; [by subst|].
  unfold is_archive in Ha. apply andb_true_iff in Ha as [Ha _]. congruence.
Qed.

Lemma rotate_due_no_archive_dir gz (self : ModelLogger) (fp : path) (f : file) (w : world) :
  file_path self = Some fp → archive_dir self = None →
  files w !! fp = Some f → max_file_size self <= file_size f →
  _rotate_log_file gz self w = (w, Raise TypeError).
Proof.
  intros Hfp Had Hf Hdue. unfold _rotate_log_file. rewrite Hfp.
  rewrite (bind_ok _ _ _ _ _ (exists_present _ _ _ Hf)). cbn [negb].
  rewrite (bind_ok _ _ _ _ _ (getsize_present _ _ _ Hf)).
  replace (file_size f >=? max_file_size self) with true
    by (symmetry; rewrite Z.geb_leb; apply Z.leb_le; lia).
  rewrite (bind_ok _ _ _ _ _ (get_archive_filename_ok _ _ _ Hfp)).
  by rewrite Had.
Qed.

(** A rotation whose compression and truncation go through: the state
    [w1] holds the archive and the emptied log, and the result comes
    from [w1] by pruning. *)
Lemma rotate_outcome gz (self : ModelLogger) (fp : path) (d : dirpath) (f : file)
    (w : world) :
  file_path self = Some fp → archive_dir self = Some d →
  files w !! fp = Some f → max_file_size self <= file_size f →
  let ap := join d (archive_name_at fp (wall w)) in
  let w1 := put_file fp [] (put_file ap (gz (data f)) w) in
  can_compress w fp ap → can_truncate w fp →
  files w1 !! ap = Some (File (gz (data f)) (epoch w)) ∧
  files w1 !! fp = Some (File [] (epoch w)) ∧
  ∃ w', _rotate_log_file gz self w = (w', Ok tt) ∧ stable w w' ∧
        (∀ p, files w' !! p = files w1 !! p ∨
              (files w' !! p = None ∧ dirname p = d ∧
               is_archive (basename fp) (basename p) = true)).
Proof.
  intros Hfp Had Hf Hdue ap w1 Hc Ht.
  split; [|split].
  - unfold w1. rewrite put_file_lookup_ne by (symmetry; apply archive_path_not_log).
    apply put_file_lookup_eq.
  - exact (put_file_lookup_eq fp [] _).
  - destruct (cleanup_guarded self (λ e, "Error during log rotation: " +:+ exn_str e) w1)
      as (w' & Hrun & Hst & Hfiles).
    exists w'. split; [|split].
    + by rewrite (rotate_cleared gz self fp d f w Hfp Had Hf Hdue Hc Ht).
    + eapply stable_trans; [|exact Hst]. unfold w1, put_file.
      eapply stable_trans; apply stable_set_files.
    + intros p. destruct (Hfiles p) as [?|(Hn & fp' & Hfp' & Had' & Ha)]; [by left|].
      right. rewrite Hfp in Hfp'. injection Hfp' as <-.
      rewrite Had in Had'. injection Had' as <-. done.
Qed.

(** ** Rotation: the results *)

Lemma cleanup_unlistable (self : ModelLogger) (d : dirpath) (w : world) :
  archive_dir self = Some d → ¬ can_list w d →
  _cleanup_old_archives self w = (w, Raise OSError).
Proof.
  intros Had Hno. unfold _cleanup_old_archives, bind, os_listdir, dir_exists.
  rewrite Had.
  destruct (decide (d ∈ dirs w)) as [Hd|Hd];
    [rewrite bool_decide_eq_true_2 by done | by rewrite bool_decide_eq_false_2].
  destruct (listdir_fails (env w) d) eqn:E; [done|].
  exfalso. apply Hno. by split.
Qed.

(** C4, as the code has it: [_rotate_log_file] changes nothing when no
    file path is set, when the log does not exist, or when the log is
    smaller than [max_file_size].  When the log has reached
    [max_file_size] and the system calls of compression and truncation
    go through, the call is the guarded pruning run from the state [w1]
    in which the archive path holds the compressed log and the log is
    empty, and it returns normally.  What is on disk afterwards is [w1]
    less what the pruning removed: when the archive directory can be
    listed (and [backup_count] is not negative) exactly the archives
    after the first [backup_count], newest first, whose removal does not
    fail; when it cannot be listed, nothing.  The log is still there,
    empty, at the same path provided it is not itself one of its own
    pruning candidates. *)
Theorem rotate_log_file_behaviour gz (self : ModelLogger) (w : world) :
  (file_path self = None → _rotate_log_file gz self w = (w, Ok tt)) ∧
  (∀ fp, file_path self = Some fp → files w !! fp = None →
         _rotate_log_file gz self w = (w, Ok tt)) ∧
  (∀ fp f, file_path self = Some fp → files w !! fp = Some f →
           file_size f < max_file_size self →
           _rotate_log_file gz self w = (w, Ok tt)) ∧
  (∀ fp f d, file_path self = Some fp → files w !! fp = Some f →
             max_file_size self <= file_size f → archive_dir self = Some d →
     let ap := join d (archive_name_at fp (wall w)) in
     let w1 := put_file fp [] (put_file ap (gz (data f)) w) in
     can_compress w fp ap → can_truncate w fp →
     _rotate_log_file gz self w
     = try_except (_cleanup_old_archives self)
         (λ e, print ("Error during log rotation: " +:+ exn_str e)) w1 ∧
     ∃ w', _rotate_log_file gz self w = (w', Ok tt) ∧
           (can_list w d → 0 <= backup_count self →
            ∀ p, files w' !! p
                 = if bool_decide
                        (p ∈ (drop (Z.to_nat (backup_count self))
                                (sorted_archives (basename fp) d w1)).*1)
                      && negb (remove_fails (env w) p)
                   then None else files w1 !! p) ∧
           (¬ can_list w d → files w' = files w1) ∧
           (log_apart fp d → files w' !! fp = Some (File [] (epoch w)))).
Proof.
  split; [apply rotate_no_path|].
  split; [intros; by eapply rotate_absent|].
  split; [intros; by eapply rotate_small|].
  intros fp f d Hfp Hf Hdue Had ap w1 Hc Ht.
  pose proof (rotate_cleared gz self fp d f w Hfp Had Hf Hdue Hc Ht) as Heq.
  fold ap in Heq. fold w1 in Heq. split; [exact Heq|].
  destruct (rotate_outcome gz self fp d f w Hfp Had Hf Hdue Hc Ht)
    as (_ & Hlog & w' & Hrun & _ & Hfiles).
  fold ap in Hfiles, Hlog. fold w1 in Hfiles, Hlog.
  exists w'. split; [exact Hrun|]. split; [|split].
  - intros [Hd Hl] Hbc.
    destruct (cleanup_outcome self fp d w1 Hfp Had Hd Hl Hbc) as (w2 & Hclean & _ & H2).
    rewrite Heq, (try_except_ok _ _ _ _ _ Hclean) in Hrun. injection Hrun as <-.
    exact H2.
  - intros Hno.
    assert (Hno1 : ¬ can_list w1 d) by exact Hno.
    rewrite Heq, (try_except_raise _ _ _ _ _ (cleanup_unlistable self d w1 Had Hno1))
      in Hrun.
    by injection Hrun as <-.
  - intros Hapart. destruct (Hfiles fp) as [->|(_ & Hd & Ha)]; [exact Hlog|].
    exfalso. by apply (log_apart_not_archive fp d Hapart).
Qed.

Lemma app_archive_on_disk : app_archive ∈ dirs full_world.
Proof. refine (bool_decide_unpack _ _). vm_compute. exact I. Defined.

Lemma app_dir_on_disk : dirname app_log ∈ dirs full_world.
Proof. refine (bool_decide_unpack _ _). vm_compute. exact I. Defined.

Lemma rotate_log_file_behaviour_witness :
  ∃ w', _rotate_log_file store_compress warning_logger crowded_world = (w', Ok tt) ∧
        files w' !! full_archive
        = Some (File (store_compress (encode "0123456789")) 1000) ∧
        files w' !! old_archive = None ∧
        files w' !! app_log = Some (File [] 1000).
Proof.
  assert (Hdir : app_archive ∈ dirs crowded_world).
  { refine (bool_decide_unpack _ _). vm_compute. exact I. }
  assert (Hlogdir : dirname app_log ∈ dirs crowded_world).
  { refine (bool_decide_unpack _ _). vm_compute. exact I. }
  destruct (proj2 (proj2 (proj2
      (rotate_log_file_behaviour store_compress warning_logger crowded_world)))
      app_log (File (encode "0123456789") 900) app_archive
      eq_refl eq_refl ltac:(by vm_compute) eq_refl
      (conj eq_refl (conj Hdir (conj eq_refl eq_refl)))
      (conj Hlogdir eq_refl))
    as (_ & w' & Hrun & Hfiles & _ & Hlog).
  specialize (Hfiles (conj Hdir eq_refl) ltac:(by vm_compute)).
  exists w'. split; [exact Hrun|]. split; [|split].
  - rewrite Hfiles. vm_compute. reflexivity.
  - rewrite Hfiles. vm_compute. reflexivity.
  - apply Hlog. left. intros H. discriminate H.
Defined.

(** C4 as stated fails: the log app.gz lies in its own archive
    directory and nothing is kept; the rotation is due, every system
    call goes through, the call returns normally, and the log is no
    longer at its path. *)
Lemma rotation_can_remove_the_log :
  file_path gz_logger = Some gz_log ∧
  (∃ f, files gz_world !! gz_log = Some f ∧ max_file_size gz_logger <= file_size f) ∧
  snd (_rotate_log_file store_compress gz_logger gz_world) = Ok tt ∧
  console (fst (_rotate_log_file store_compress gz_logger gz_world)) = [] ∧
  files (fst (_rotate_log_file store_compress gz_logger gz_world)) !! gz_log = None.
Proof.
  split; [reflexivity|]. split.
  { eexists. split; [reflexivity | by vm_compute]. }
  vm_compute. repeat split.
Qed.




(** C2, as the code has it: when a due rotation cannot read the log or
    cannot write the archive, [_rotate_log_file] does not raise; it
    reports the error on the console and returns normally, and the log
    is left as it was. *)
Theorem rotate_reports_compress_failure gz (self : ModelLogger) (fp : path)
    (d : dirpath) (f : file) (w : world) :
  file_path self = Some fp → archive_dir self = Some d →
  files w !! fp = Some f → max_file_size self <= file_size f →
  let ap := join d (archive_name_at fp (wall w)) in
  (read_fails (env w) fp = true ∨ dirname ap ∉ dirs w ∨
   create_fails (env w) ap = true ∨ is_Some (copy_fails (env w) ap)) →
  ∃ w', _rotate_log_file gz self w = (w', Ok tt) ∧
        files w' !! fp = Some f ∧
        console w' = console w ++ ["Error during log rotation: OSError"].
Proof.
  intros Hfp Had Hf Hdue ap Hfault.
  apply (rotate_compress_fails gz self fp d f w Hfp Had Hf Hdue).
  intros (Hr & Hd & Hc & Hcp). fold ap in Hd, Hc, Hcp.
  destruct Hfault as [H|[H|[H|[junk H]]]]; congruence.
Qed.

Lemma rotate_reports_compress_failure_witness :
  ∃ w', _rotate_log_file store_compress warning_logger unreadable_world = (w', Ok tt) ∧
        files w' !! app_log = Some (File (encode "0123456789") 900) ∧
        console w' = ["Error during log rotation: OSError"].
Proof.
  exact (rotate_reports_compress_failure store_compress warning_logger app_log
           app_archive (File (encode "0123456789") 900) unreadable_world
           eq_refl eq_refl eq_refl ltac:(by vm_compute) (or_introl eq_refl)).
Defined.

(** C2 as stated fails: the log cannot be read, the rotation is due, and
    the call returns normally instead of raising. *)
Lemma rotate_failure_not_propagated :
  read_fails (env unreadable_world) app_log = true ∧
  (∃ f, files unreadable_world !! app_log = Some f ∧
        max_file_size warning_logger <= file_size f) ∧
  snd (_rotate_log_file store_compress warning_logger unreadable_world) = Ok tt ∧
  ¬ ∃ e, snd (_rotate_log_file store_compress warning_logger unreadable_world) = Raise e.
Proof.
  split; [reflexivity|]. split.
  { eexists. split; [reflexivity | by vm_compute]. }
  assert (H : snd (_rotate_log_file store_compress warning_logger unreadable_world) = Ok tt)
    by (vm_compute; reflexivity).
  split; [exact H|]. intros [e He]. rewrite H in He. discriminate He.
Qed.

(** C10, as the code has it: a due rotation whose compression or
    truncation raises does not stop the write.  The rotation returns
    normally with the log untouched and the failure reported on the
    console, and [_write_to_file] goes on to the append on that log.
    When the append itself goes through (the open, the encoding and the
    write), the call returns normally and the log is its former content
    followed by the record, so it is at or above [max_file_size].  When
    the appending open fails, the call raises [OSError] and the record
    is not written. *)
Theorem write_survives_rotation_failure gz (self : ModelLogger) (fp : path)
    (d : dirpath) (f : file) (w : world) (message : string) :
  file_path self = Some fp → archive_dir self = Some d →
  files w !! fp = Some f → max_file_size self <= file_size f →
  let ap := join d (archive_name_at fp (wall w)) in
  ¬ can_compress w fp ap ∨ (can_compress w fp ap ∧ truncate_fails (env w) fp = true) →
  ∃ w1, _rotate_log_file gz self w = (w1, Ok tt) ∧
        files w1 !! fp = Some f ∧
        console w1 = console w ++ ["Error during log rotation: OSError"] ∧
        _write_to_file gz self message w = open_a_write fp (record_text message) w1 ∧
        (can_write w fp (record_text message) →
           ∃ w' f', _write_to_file gz self message w = (w', Ok tt) ∧
                    files w' !! fp = Some f' ∧
                    data f' = data f ++ record_bytes message ∧
                    max_file_size self <= file_size f' ∧
                    console w' = console w ++ ["Error during log rotation: OSError"]) ∧
        (¬ can_append w fp →
           _write_to_file gz self message w = (w1, Raise OSError)).
Proof.
  intros Hfp Had Hf Hdue ap Hfail.
  assert (Hrot : ∃ w1, _rotate_log_file gz self w = (w1, Ok tt) ∧
                       files w1 !! fp = Some f ∧
                       console w1 = console w ++ ["Error during log rotation: OSError"]).
  { destruct Hfail as [Hno|[Hc Htr]].
    - by apply (rotate_compress_fails gz self fp d f w).
    - destruct (rotate_truncate_fails gz self fp d f w Hfp Had Hf Hdue Hc)
        as (w1 & ? & ? & _ & ?); [|by exists w1].
      intros [_ Hok]. congruence. }
  destruct Hrot as (w1 & Hrun & Hlive & Hcon).
  pose proof (preserves_rotate gz self _ _ _ Hrun) as (Hdirs & Henv & Hep & _).
  assert (Hwrite : _write_to_file gz self message w
                   = open_a_write fp (record_text message) w1).
  { unfold _write_to_file. rewrite Hfp. by rewrite (bind_ok _ _ _ _ _ Hrun). }
  exists w1. split; [exact Hrun|]. split; [exact Hlive|]. split; [exact Hcon|].
  split; [exact Hwrite|]. split.
  - intros ([Hd Ha] & Henc & Hwr).
    assert (Hcw : can_write w1 fp (record_text message)).
    { repeat split; congruence. }
    exists (put_file fp (data f ++ record_bytes message) w1),
           (File (data f ++ record_bytes message) (epoch w1)).
    split; [|split; [|split; [|split]]].
    + rewrite Hwrite, (open_a_write_ok _ _ _ Hcw). by rewrite Hlive.
    + apply put_file_lookup_eq.
    + reflexivity.
    + unfold file_size in *. cbn [data]. rewrite length_app. lia.
    + exact Hcon.
  - intros Hno. rewrite Hwrite. unfold open_a_write.
    apply bind_raise, open_a_fails. intros [Hd Ha]. apply Hno. split; congruence.
Qed.

Lemma write_survives_rotation_failure_witness :
  ∃ w' f', _write_to_file store_compress warning_logger "late" append_only_world
             = (w', Ok tt) ∧
           files w' !! app_log = Some f' ∧
           data f' = encode "0123456789" ++ record_bytes "late" ∧
           max_file_size warning_logger <= file_size f' ∧
           console w' = ["Error during log rotation: OSError"].
Proof.
  destruct (write_survives_rotation_failure store_compress warning_logger app_log
              app_archive (File (encode "0123456789") 900) append_only_world "late"
              eq_refl eq_refl eq_refl ltac:(by vm_compute)
              (or_intror (conj (conj eq_refl
                                  (conj app_archive_on_disk (conj eq_refl eq_refl)))
                               eq_refl)))
    as (w1 & _ & _ & _ & _ & Hok & _).
  exact (Hok (conj (conj app_dir_on_disk eq_refl) (conj eq_refl eq_refl))).
Defined.

(** C10 as stated fails: the log is read-only, so the truncation of a
    due rotation raises (the rotation reports it and returns) and so
    does the append; [_write_to_file] raises [OSError] and the record is
    not in the log. *)
Lemma read_only_log_loses_the_record :
  truncate_fails (env read_only_log_world) app_log = true ∧
  (∃ f, files read_only_log_world !! app_log = Some f ∧
        max_file_size warning_logger <= file_size f) ∧
  snd (_rotate_log_file store_compress warning_logger read_only_log_world) = Ok tt ∧
  (∃ s, console (fst (_rotate_log_file store_compress warning_logger
                        read_only_log_world))
        = ["Error during log rotation: " +:+ s]) ∧
  snd (_write_to_file store_compress warning_logger "late" read_only_log_world)
  = Raise OSError ∧
  files (fst (_write_to_file store_compress warning_logger "late" read_only_log_world))
    !! app_log = Some (File (encode "0123456789") 900).
Proof.
  split; [reflexivity|]. split.
  { eexists. split; [reflexivity | by vm_compute]. }
  split; [by vm_compute|]. split; [by exists "OSError"; vm_compute|].
  vm_compute. split; reflexivity.
Qed.

(** ** The write path: the results *)

(** C1, as the code has it (the size is checked before the record is
    appended): when [_write_to_file] returns normally for a logger with
    a file path and a positive [max_file_size], the log exists and ends
    with the record; and when the system calls of compression and
    truncation go through, what precedes the record is strictly smaller
    than [max_file_size], so the log is strictly smaller than
    [max_file_size] plus the size of the record. *)
Theorem write_keeps_log_within_one_record gz (self : ModelLogger) (fp : path)
    (message : string) (w w' : world) :
  file_path self = Some fp → 0 < max_file_size self →
  _write_to_file gz self message w = (w', Ok tt) →
  ∃ before f',
    files w' !! fp = Some f' ∧ data f' = before ++ record_bytes message ∧
    ((∀ d, archive_dir self = Some d →
           can_compress w fp (join d (archive_name_at fp (wall w))) ∧
           can_truncate w fp) →
     Z.of_nat (length before) < max_file_size self ∧
     file_size f' < max_file_size self + Z.of_nat (length (record_bytes message))).
Proof.
  intros Hfp Hmax. unfold _write_to_file. rewrite Hfp. unfold bind.
  destruct (_rotate_log_file gz self w) as [w1 [[]|e]] eqn:Hrot; [|discriminate].
  intros Hw. apply open_a_write_result in Hw. subst w'.
  set (before := match files w1 !! fp with Some f => data f | None => [] end).
  exists before, (File (before ++ record_bytes message) (epoch w1)).
  split; [apply put_file_lookup_eq|]. split; [reflexivity|].
  intros Hio.
  assert (Hb : Z.of_nat (length before) < max_file_size self).
  { subst before. destruct (files w !! fp) as [f|] eqn:Hf.
    - destruct (Z.lt_ge_cases (file_size f) (max_file_size self)) as [Hlt|Hdue].
      + rewrite (rotate_small gz self fp f w Hfp Hf Hlt) in Hrot.
        injection Hrot as <-. by rewrite Hf.
      + destruct (archive_dir self) as [d|] eqn:Had.
        * destruct (Hio d eq_refl) as [Hc Ht].
          destruct (rotate_outcome gz self fp d f w Hfp Had Hf Hdue Hc Ht)
            as (_ & Hlog & w2 & Hrun & _ & Hfiles).
          rewrite Hrun in Hrot. injection Hrot as <-.
          destruct (Hfiles fp) as [->|[-> _]]; [rewrite Hlog|]; simpl; lia.
        * rewrite (rotate_due_no_archive_dir gz self fp f w Hfp Had Hf Hdue) in Hrot.
          discriminate Hrot.
    - rewrite (rotate_absent gz self fp w Hfp Hf) in Hrot.
      injection Hrot as <-. rewrite Hf. simpl. lia. }
  split; [exact Hb|]. unfold file_size. cbn [data]. rewrite length_app. lia.
Qed.

Lemma write_keeps_log_within_one_record_witness :
  ∃ before f',
    files (fst (_write_to_file store_compress warning_logger "late" full_world))
      !! app_log = Some f' ∧
    data f' = before ++ record_bytes "late" ∧
    Z.of_nat (length before) < 10 ∧
    file_size f' < 10 + Z.of_nat (length (record_bytes "late")).
Proof.
  assert (Hrun : _write_to_file store_compress warning_logger "late" full_world
                 = (fst (_write_to_file store_compress warning_logger "late" full_world),
                    Ok tt)).
  { assert (Hs : snd (_write_to_file store_compress warning_logger "late" full_world)
                 = Ok tt) by (vm_compute; reflexivity).
    destruct (_write_to_file store_compress warning_logger "late" full_world) as [w' r].
    cbn [fst snd] in *. by rewrite Hs. }
  destruct (write_keeps_log_within_one_record store_compress warning_logger app_log
              "late" full_world _ eq_refl ltac:(by vm_compute) Hrun)
    as (before & f' & Hf' & Hdata & Hbound).
  exists before, f'. split; [exact Hf'|]. split; [exact Hdata|].
  apply Hbound. intros d [= <-].
  exact (conj (conj eq_refl (conj app_archive_on_disk (conj eq_refl eq_refl)))
              (conj app_dir_on_disk eq_refl)).
Defined.

(** C1 as stated fails: the first record written to a fresh log is
    longer than [max_file_size]; the write returns normally and leaves
    the log above the limit. *)
Lemma write_leaves_log_over_limit :
  file_path warning_logger = Some app_log ∧
  snd (_write_to_file store_compress warning_logger
         "a record longer than ten bytes" bare_world) = Ok tt ∧
  ∃ f, files (fst (_write_to_file store_compress warning_logger
                     "a record longer than ten bytes" bare_world)) !! app_log = Some f ∧
       ¬ file_size f < max_file_size warning_logger.
Proof.
  split; [reflexivity|]. split; [vm_compute; reflexivity|].
  eexists. split; [vm_compute; reflexivity|]. by vm_compute.
Qed.

(** ** The retention bound *)

Lemma archive_count_files (base : string) (d : dirpath) (w w' : world) :
  files w' = files w → archive_count base d w' = archive_count base d w.
Proof. intros H. unfold archive_count, archives_in. by rewrite H. Qed.

Lemma archive_count_put_log (fp : path) (d : dirpath) (bs : list byte) (w : world) :
  log_apart fp d →
  archive_count (basename fp) d (put_file fp bs w) = archive_count (basename fp) d w.
Proof.
  intros Hapart. unfold archive_count, archives_in, put_file. cbn [files set_files].
  rewrite map_filter_insert_not; [done|].
  intros fl [Hd Ha]. cbn [fst snd] in Hd, Ha.
  apply (log_apart_not_archive fp d Hapart). split; [done|]. by destruct fp.
Qed.

Lemma compress_log_refused gz (fp ap : path) (f : file) (w : world) :
  files w !! fp = Some f → ¬ can_compress w fp ap →
  copy_fails (env w) ap = None →
  compress_log gz fp ap w = (w, Raise OSError).
Proof.
  intros Hf Hno Hcp. unfold compress_log, bind at 1, open_rb. rewrite Hf.
  destruct (read_fails (env w) fp) eqn:Hr; [done|].
  unfold bind, gzip_open_wb, dir_exists.
  destruct (decide (dirname ap ∈ dirs w)) as [Hd|Hd];
    [rewrite bool_decide_eq_true_2 by done | by rewrite bool_decide_eq_false_2].
  destruct (create_fails (env w) ap) eqn:Hc; [done|].
  exfalso. apply Hno. by repeat split.
Qed.

Lemma can_compress_cases (w : world) (fp ap : path) :
  can_compress w fp ap ∨ ¬ can_compress w fp ap.
Proof.
  unfold can_compress.
  destruct (read_fails (env w) fp); [right; intros (? & _); done|].
  destruct (decide (dirname ap ∈ dirs w)); [|right; intros (_ & ? & _); done].
  destruct (create_fails (env w) ap); [right; intros (_ & _ & ? & _); done|].
  destruct (copy_fails (env w) ap); [right; intros (_ & _ & _ & ?); done|].
  by left.
Qed.

(** One call of [_rotate_log_file] keeps the bound. *)
Lemma rotate_keeps_bound gz (self : ModelLogger) (fp : path) (d : dirpath)
    (w w' : world) (r : result unit) :
  file_path self = Some fp → archive_dir self = Some d →
  0 <= backup_count self →
  rotation_completes w → dirname fp ∈ dirs w →
  Z.of_nat (archive_count (basename fp) d w) <= backup_count self →
  _rotate_log_file gz self w = (w', r) →
  Z.of_nat (archive_count (basename fp) d w') <= backup_count self.
Proof.
  intros Hfp Had Hbc (Hcp & Htr & Hls & Hrm) Hdir Hcount Hrun.
  destruct (files w !! fp) as [f|] eqn:Hf.
  2:{ rewrite (rotate_absent gz self fp w Hfp Hf) in Hrun. by injection Hrun as <- _. }
  destruct (Z.lt_ge_cases (file_size f) (max_file_size self)) as [Hlt|Hdue].
  { rewrite (rotate_small gz self fp f w Hfp Hf Hlt) in Hrun. by injection Hrun as <- _. }
  set (ap := join d (archive_name_at fp (wall w))).
  destruct (can_compress_cases w fp ap) as [Hc|Hno].
  - assert (Ht : can_truncate w fp) by (split; [done | apply Htr]).
    rewrite (rotate_cleared gz self fp d f w Hfp Had Hf Hdue Hc Ht) in Hrun.
    fold ap in Hrun.
    set (w1 := put_file fp [] (put_file ap (gz (data f)) w)) in *.
    destruct (cleanup_bounds_count self fp d w1 Hfp Had) as (w2 & Hclean & _ & Hle);
      [by destruct Hc as (_ & ? & _) | apply Hls | apply Hrm | done |].
    rewrite (try_except_ok _ _ _ _ _ Hclean) in Hrun. by injection Hrun as <- _.
  - rewrite (rotate_due_unfold gz self fp d f w Hfp Had Hf Hdue) in Hrun.
    fold ap in Hrun.
    rewrite (try_except_raise _ _ _ _ _
               (bind_raise _ _ _ _ _ (compress_log_refused gz fp ap f w Hf Hno (Hcp ap))))
      in Hrun.
    injection Hrun as <- _. by rewrite (archive_count_files _ _ w).
Qed.

Lemma open_a_write_keeps_count (fp : path) (d : dirpath) (s : string)
    (w w' : world) (r : result unit) :
  log_apart fp d → open_a_write fp s w = (w', r) →
  archive_count (basename fp) d w' = archive_count (basename fp) d w.
Proof.
  intros Hapart. unfold open_a_write, bind, open_a, file_write.
  destruct (negb (dir_exists w (dirname fp)) || append_fails (env w) fp);
    [by intros [= <- _]|].
  destruct (files w !! fp);
    (destruct (encode_fails _ s); [|destruct (write_fails _ fp)]);
    intros [= <- _]; by rewrite ?archive_count_put_log.
Qed.

(** One call of [_write_to_file] keeps the bound. *)
Lemma write_keeps_bound gz (self : ModelLogger) (fp : path) (d : dirpath)
    (message : string) (w w' : world) (r : result unit) :
  file_path self = Some fp → archive_dir self = Some d → log_apart fp d →
  0 <= backup_count self →
  rotation_completes w → dirname fp ∈ dirs w →
  Z.of_nat (archive_count (basename fp) d w) <= backup_count self →
  _write_to_file gz self message w = (w', r) →
  Z.of_nat (archive_count (basename fp) d w') <= backup_count self.
Proof.
  intros Hfp Had Hapart Hbc Hio Hdir Hcount. unfold _write_to_file. rewrite Hfp.
  unfold bind. destruct (_rotate_log_file gz self w) as [w1 [[]|e]] eqn:Hrot.
  - pose proof (rotate_keeps_bound gz self fp d w w1 _ Hfp Had Hbc Hio Hdir Hcount Hrot)
      as Hle.
    intros Happ. by rewrite (open_a_write_keeps_count fp d _ w1 w' r Hapart Happ).
  - intros [= <- _].
    exact (rotate_keeps_bound gz self fp d w w1 _ Hfp Had Hbc Hio Hdir Hcount Hrot).
Qed.

Lemma rotation_completes_stable (w w' : world) :
  stable w w' → rotation_completes w → rotation_completes w'.
Proof. intros (_ & He & _) H. unfold rotation_completes in *. by rewrite He. Qed.

(** C6, as the code has it: start from a world in which at most
    [backup_count] archives of the log are in the archive directory, and
    let not only the removals but also the copy, the truncation and the
    listing of every rotation go through (a rotation that fails after
    its archive is written skips the pruning).  Then after any sequence
    of rotations at most [backup_count] archives of the log are in the
    archive directory; and so it is after any sequence of writes and
    rotations, provided the log is not one of its own pruning candidates
    (a write creates the log, which would then count as an archive). *)
Theorem archive_count_bounded gz (self : ModelLogger) (fp : path) (d : dirpath)
    (w0 : world) :
  file_path self = Some fp → archive_dir self = Some d →
  rotation_completes w0 → dirname fp ∈ dirs w0 →
  Z.of_nat (archive_count (basename fp) d w0) <= backup_count self →
  (∀ w, rotation_run gz self w0 w →
        Z.of_nat (archive_count (basename fp) d w) <= backup_count self) ∧
  (log_apart fp d →
   ∀ w, logging_run gz self w0 w →
        Z.of_nat (archive_count (basename fp) d w) <= backup_count self).
Proof.
  intros Hfp Had Hio Hdir Hcount.
  assert (Hbc : 0 <= backup_count self) by lia.
  split.
  - intros w Hrun.
    assert (Hinv : rotation_completes w ∧ dirname fp ∈ dirs w ∧
                   Z.of_nat (archive_count (basename fp) d w) <= backup_count self).
    { induction Hrun as [|w1 w2 e t r _ IH Hstep]; [done|].
      destruct IH as (Hio1 & Hdir1 & Hc1).
      pose proof (preserves_rotate gz self _ _ _ Hstep) as Hst.
      split; [by apply (rotation_completes_stable _ _ Hst)|].
      split; [destruct Hst as (-> & _); exact Hdir1|].
      by apply (rotate_keeps_bound gz self fp d (set_clock e t w1) w2 r). }
    apply Hinv.
  - intros Hapart w Hrun.
    assert (Hinv : rotation_completes w ∧ dirname fp ∈ dirs w ∧
                   Z.of_nat (archive_count (basename fp) d w) <= backup_count self).
    { induction Hrun as [|w1 w2 e t message r _ IH Hstep|w1 w2 e t r _ IH Hstep].
      - done.
      - destruct IH as (Hio1 & Hdir1 & Hc1).
        pose proof (preserves_write_to_file gz self message _ _ _ Hstep) as Hst.
        split; [by apply (rotation_completes_stable _ _ Hst)|].
        split; [destruct Hst as (-> & _); exact Hdir1|].
        by apply (write_keeps_bound gz self fp d message (set_clock e t w1) w2 r).
      - destruct IH as (Hio1 & Hdir1 & Hc1).
        pose proof (preserves_rotate gz self _ _ _ Hstep) as Hst.
        split; [by apply (rotation_completes_stable _ _ Hst)|].
        split; [destruct Hst as (-> & _); exact Hdir1|].
        by apply (rotate_keeps_bound gz self fp d (set_clock e t w1) w2 r). }
    apply Hinv.
Qed.

Lemma archive_count_bounded_witness :
  Z.of_nat (archive_count (basename app_log) app_archive two_kept_world)
  = backup_count warning_logger ∧
  Z.of_nat (archive_count (basename app_log) app_archive
              (fst (_rotate_log_file store_compress warning_logger
                      (set_clock 2000 noon two_kept_world))))
  <= backup_count warning_logger ∧
  Z.of_nat (archive_count (basename app_log) app_archive
              (fst (_write_to_file store_compress warning_logger "late"
                      (set_clock 2000 noon two_kept_world))))
  <= backup_count warning_logger.
Proof.
  split; [by vm_compute|].
  assert (Hdir : dirname app_log ∈ dirs two_kept_world).
  { refine (bool_decide_unpack _ _). vm_compute. exact I. }
  destruct (archive_count_bounded store_compress warning_logger app_log app_archive
              two_kept_world eq_refl eq_refl
              ltac:(repeat split; intros; reflexivity) Hdir ltac:(by vm_compute))
    as [Hrot Hlog].
  split.
  - apply Hrot. eapply rotations_step; [apply rotations_start | apply surjective_pairing].
  - apply Hlog; [left; intros H; discriminate H|].
    eapply run_write; [apply run_start | apply surjective_pairing].
Defined.

(** In those runs the rotation writes a third archive and the pruning
    removes the oldest of the three. *)
Example archive_count_bounded_run :
  let w' := fst (_write_to_file store_compress warning_logger "late"
                   (set_clock 2000 noon two_kept_world)) in
  files w' !! full_archive = Some (File (store_compress (encode "0123456789")) 2000) ∧
  files w' !! new_archive = Some (File [x1f; x8b] 300) ∧
  files w' !! mid_archive = None ∧
  archive_count (basename app_log) app_archive w' = 2%nat.
Proof. vm_compute. repeat split. Qed.

(** C6 as stated fails: two archives are kept and [backup_count] is 2;
    the log is read-only, so a due rotation writes a third archive, fails
    at the truncation and skips the pruning.  No removal has failed, and
    three archives of the log are in the archive directory. *)
Lemma failed_rotation_exceeds_backup_count :
  (∀ p, remove_fails (env read_only_log_world) p = false) ∧
  Z.of_nat (archive_count (basename app_log) app_archive read_only_log_world)
  <= backup_count warning_logger ∧
  rotation_run store_compress warning_logger read_only_log_world
    (fst (_rotate_log_file store_compress warning_logger read_only_log_world)) ∧
  ¬ Z.of_nat (archive_count (basename app_log) app_archive
                (fst (_rotate_log_file store_compress warning_logger
                        read_only_log_world)))
    <= backup_count warning_logger.
Proof.
  split; [intros p; reflexivity|]. split; [by vm_compute|]. split.
  - apply (rotations_step _ _ _ read_only_log_world _ 1000 noon
             (snd (_rotate_log_file store_compress warning_logger read_only_log_world)));
      [apply rotations_start|].
    apply surjective_pairing.
  - by vm_compute.
Qed.

Lemma crowded_archive_on_disk : app_archive ∈ dirs crowded_world.
Proof. refine (bool_decide_unpack _ _). vm_compute. exact I. Defined.

Lemma cleanup_prunes_oldest_witness :
  ∃ (sorted : list (path * Z)) (w' : world),
    _cleanup_old_archives warning_logger crowded_world = (w', Ok tt) ∧
    newest_first sorted ∧
    (∀ p, p ∈ (drop 2 sorted).*1 → files w' !! p = None) ∧
    (∀ p, p ∉ sorted.*1 → files w' !! p = files crowded_world !! p).
Proof.
  destruct (cleanup_prunes_oldest warning_logger app_log app_archive crowded_world
              eq_refl eq_refl crowded_archive_on_disk eq_refl ltac:(by vm_compute))
    as (sorted & w' & Hrun & _ & _ & _ & Hsorted & _ & _ & Hdrop & Hother).
  exists sorted, w'. split; [exact Hrun|]. split; [exact Hsorted|].
  split; [|exact Hother]. intros p Hp. by apply Hdrop.
Defined.

(** ** The model at work *)

Example archive_name_example :
  archive_name_at app_log noon = "app.log_20240309_120000.gz".
Proof. reflexivity. Qed.

Example cleanup_example :
  let w' := fst (_cleanup_old_archives warning_logger crowded_world) in
  files w' !! old_archive = None ∧
  files w' !! mid_archive = Some (File [x1f; x8b] 200) ∧
  files w' !! new_archive = Some (File [x1f; x8b] 300) ∧
  files w' !! foreign_archive = Some (File [x1f; x8b] 50) ∧
  files w' !! notes_file = Some (File [] 10) ∧
  archive_count (basename app_log) app_archive w' = 2%nat.
Proof. vm_compute. repeat split. Qed.

Example rotation_example :
  let w' := fst (_write_to_file store_compress warning_logger "late" crowded_world) in
  files w' !! app_log = Some (File (record_bytes "late") 1000) ∧
  files w' !! full_archive
    = Some (File (store_compress (encode "0123456789")) 1000) ∧
  files w' !! new_archive = Some (File [x1f; x8b] 300) ∧
  files w' !! mid_archive = None ∧
  files w' !! old_archive = None.
Proof. vm_compute. repeat split. Qed.

Example log_example :
  console (fst (error store_compress warning_logger "disk full" bare_world))
  = [esc "[31m" +:+ "[2024-03-09 12:00:00] ERROR    ModelLogger: disk full" +:+ esc "[0m"] ∧
  (data <$> files (fst (error store_compress warning_logger "disk full" bare_world))
            !! app_log)
  = Some (encode "[2024-03-09 12:00:00] ERROR    ModelLogger: disk full" ++ [x0a]).
Proof. vm_compute. split; reflexivity. Qed.

Example negative_backup_count_example :
  slice_from (-1) [1; 2; 3]%nat = [3]%nat ∧ slice_from 5 [1; 2; 3]%nat = [].
Proof. split; reflexivity. Qed.

Example init_example :
  snd (__init__ None (Some app_log) (Some DEFAULT_TIMESTAMP_FORMAT) "info"
         DEFAULT_MAX_FILE_SIZE DEFAULT_BACKUP_COUNT None bare_world)
  = Ok {| name := "ModelLogger"; file_path := Some app_log;
          timestamp_format := Some "%Y-%m-%d %H:%M:%S"; level := "INFO";
          max_file_size := 10485760; backup_count := 5;
          archive_dir := Some app_archive |}.
Proof. reflexivity. Qed.

(** A rotation that fails at the truncation has written its archive and
    skips the pruning: the hypothesis [rotation_completes] of the
    retention bound cannot be dropped. *)
Example read_only_log_example :
  let run := _write_to_file store_compress warning_logger "late" read_only_log_world in
  archive_count (basename app_log) app_archive read_only_log_world = 2%nat ∧
  snd run = Raise OSError ∧
  archive_count (basename app_log) app_archive (fst run) = 3%nat ∧
  console (fst run) = ["Error during log rotation: OSError"].
Proof. vm_compute. repeat split. Qed.

(** * Further properties of the module *)

(** ** Relations every run respects *)

Section respects.
Context (R : relation world) `{!PreOrder R}.

Lemma respects_ret {A} (a : A) : respects R (ret a).
Proof. intros w w' r [= <- _]. reflexivity. Qed.

Lemma respects_raise {A} (e : exn) : respects R (@raise A e).
Proof. intros w w' r [= <- _]. reflexivity. Qed.

Lemma respects_lift {A} (x : result A) : respects R (lift x).
Proof. intros w w' r [= <- _]. reflexivity. Qed.

Lemma respects_bind {A B} (m : IO A) (k : A → IO B) :
  respects R m → (∀ a, respects R (k a)) → respects R (bind m k).
Proof.
  intros Hm Hk w w' r. unfold bind. destruct (m w) as [w1 [a|e]] eqn:E; intros H.
  - etrans; [eapply Hm, E | eapply Hk, H].
  - injection H as <- _. eapply Hm, E.
Qed.

Lemma respects_try_except {A} (m : IO A) (h : exn → IO A) :
  respects R m → (∀ e, respects R (h e)) → respects R (try_except m h).
Proof.
  intros Hm Hh w w' r. unfold try_except. destruct (m w) as [w1 [a|e]] eqn:E; intros H.
  - injection H as <- _. eapply Hm, E.
  - etrans; [eapply Hm, E | eapply Hh, H].
Qed.

Lemma respects_try_except_OSError {A} (m : IO A) (h : exn → IO A) :
  respects R m → (∀ e, respects R (h e)) → respects R (try_except_OSError m h).
Proof.
  intros Hm Hh w w' r. unfold try_except_OSError.
  destruct (m w) as [w1 [a|[]]] eqn:E; intros H;
    try (injection H as <- _; eapply Hm, E).
  etrans; [eapply Hm, E | eapply Hh, H].
Qed.

Lemma respects_for_each {A} (l : list A) (body : A → IO unit) :
  (∀ x, respects R (body x)) → respects R (for_each l body).
Proof.
  intros Hb. induction l as [|x l IH]; cbn [for_each].
  - apply respects_ret.
  - apply respects_bind; auto.
Qed.

(** A call that returns the world it was given. *)
Lemma respects_pure {A} (m : IO A) : (∀ w, fst (m w) = w) → respects R m.
Proof. intros Hm w w' r E. specialize (Hm w). rewrite E in Hm. cbn in Hm. by subst. Qed.

End respects.

Global Instance same_files_outside_preorder (P : path → Prop) :
  PreOrder (same_files_outside P).
Proof.
  split.
  - by intros w p _.
  - intros w1 w2 w3 H12 H23 p Hp. by rewrite H23, H12.
Qed.

Global Instance console_extends_preorder : PreOrder console_extends.
Proof. unfold console_extends. split; [by intros w | intros w1 w2 w3; apply transitivity]. Qed.

Lemma pure_datetime_now (w : world) : fst (datetime_now w) = w.
Proof. reflexivity. Qed.

Lemma pure_exists (p : path) (w : world) : fst (os_path_exists p w) = w.
Proof. reflexivity. Qed.

Lemma pure_getsize (p : path) (w : world) : fst (os_path_getsize p w) = w.
Proof. unfold os_path_getsize. by destruct (files w !! p). Qed.

Lemma pure_getmtime (p : path) (w : world) : fst (os_path_getmtime p w) = w.
Proof. unfold os_path_getmtime. by destruct (files w !! p). Qed.

Lemma pure_listdir (d : dirpath) (w : world) : fst (os_listdir d w) = w.
Proof. unfold os_listdir. by destruct (_ || _). Qed.

Lemma pure_open_rb (p : path) (w : world) : fst (open_rb p w) = w.
Proof. unfold open_rb. destruct (files w !! p); [|done]. by destruct (read_fails _ _). Qed.

Lemma pure_get_archive_filename (self : ModelLogger) (w : world) :
  fst (_get_archive_filename self w) = w.
Proof. unfold _get_archive_filename, bind, datetime_now. by destruct (file_path self). Qed.

Lemma pure_collect (self : ModelLogger) (d : dirpath) (listing : list string) (w : world) :
  fst (collect_archives self d listing w) = w.
Proof.
  destruct (collect_archives self d listing w) as [w' r] eqn:E.
  by apply collect_archives_sound in E as [-> _].
Qed.

(** *** The console only grows *)

Ltac same_console := intros [= <- _]; unfold console_extends; reflexivity.

Lemma console_print (s : string) : respects console_extends (print s).
Proof. intros w w' r [= <- _]. by apply prefix_app_r. Qed.

Lemma console_put_file (p : path) (bs : list byte) (w : world) :
  console_extends w (put_file p bs w).
Proof. by unfold console_extends. Qed.

Lemma console_remove (p : path) : respects console_extends (os_remove p).
Proof.
  intros w w' r. unfold os_remove. destruct (files w !! p); [|same_console].
  destruct (remove_fails _ _); same_console.
Qed.

Lemma console_gzip_open_wb (p : path) : respects console_extends (gzip_open_wb p).
Proof. intros w w' r. unfold gzip_open_wb. destruct (_ || _); same_console. Qed.

Lemma console_open_w_close (p : path) : respects console_extends (open_w_close p).
Proof. intros w w' r. unfold open_w_close. destruct (_ || _); same_console. Qed.

Lemma console_open_a_write (p : path) (s : string) :
  respects console_extends (open_a_write p s).
Proof.
  unfold open_a_write. apply respects_bind; [apply _ | |]; [|intros _].
  - intros w w' r. unfold open_a. destruct (_ || _); [same_console|].
    destruct (files w !! p); same_console.
  - intros w w' r. unfold file_write. destruct (encode_fails _ s); [same_console|].
    destruct (write_fails _ p); same_console.
Qed.

Lemma console_copyfileobj gz (src dst : path) :
  respects console_extends (copyfileobj gz src dst).
Proof.
  intros w w' r. unfold copyfileobj. destruct (copy_fails _ _); [same_console|].
  destruct (files w !! src); same_console.
Qed.

Create HintDb console.

#[export] Hint Resolve respects_ret respects_raise respects_lift respects_bind
  respects_try_except respects_try_except_OSError respects_for_each
  console_print console_remove console_gzip_open_wb console_open_w_close
  console_open_a_write console_copyfileobj
  console_extends_preorder same_files_outside_preorder : console.

#[export] Hint Extern 1 (respects _ (os_path_exists _)) =>
  apply respects_pure, pure_exists : console.
#[export] Hint Extern 1 (respects _ (os_path_getsize _)) =>
  apply respects_pure, pure_getsize : console.
#[export] Hint Extern 1 (respects _ (os_listdir _)) =>
  apply respects_pure, pure_listdir : console.
#[export] Hint Extern 1 (respects _ (open_rb _)) =>
  apply respects_pure, pure_open_rb : console.
#[export] Hint Extern 1 (respects _ (_get_archive_filename _)) =>
  apply respects_pure, pure_get_archive_filename : console.
#[export] Hint Extern 1 (respects _ (collect_archives _ _ _)) =>
  apply respects_pure, pure_collect : console.

Lemma console_cleanup (self : ModelLogger) :
  respects console_extends (_cleanup_old_archives self).
Proof.
  unfold _cleanup_old_archives. destruct (archive_dir self); [|auto with console].
  apply respects_bind; [apply _ | auto with console |]. intros listing.
  apply respects_bind; [apply _ | auto with console |]. intros archives.
  apply respects_for_each; [apply _|]. intros x. unfold remove_archive.
  auto with console.
Qed.

Lemma console_rotate gz (self : ModelLogger) :
  respects console_extends (_rotate_log_file gz self).
Proof.
  unfold _rotate_log_file. destruct (file_path self) as [fp|]; [|auto with console].
  apply respects_bind; [apply _ | auto with console |]. intros present.
  destruct (negb present); [auto with console|].
  apply respects_bind; [apply _ | auto with console |]. intros size.
  destruct (size >=? max_file_size self); [|auto with console].
  apply respects_bind; [apply _ | auto with console |]. intros n.
  apply respects_bind; [apply _ | destruct (archive_dir self); auto with console |].
  intros ap. apply respects_try_except; [apply _ | | auto with console].
  unfold compress_log.
  repeat (apply respects_bind; [apply _ | auto with console |]; intros _).
  apply console_cleanup.
Qed.

Lemma console_write_to_file gz (self : ModelLogger) (message : string) :
  respects console_extends (_write_to_file gz self message).
Proof.
  unfold _write_to_file. destruct (file_path self); [|auto with console].
  apply respects_bind; [apply _ | apply console_rotate | auto with console].
Qed.

(** *** Only the logger's own files change *)

Lemma files_set_console (P : path → Prop) (c : list string) (w : world) :
  same_files_outside P w (set_console c w).
Proof. by intros p _. Qed.

Lemma files_put_file (P : path → Prop) (p : path) (bs : list byte) (w : world) :
  P p → same_files_outside P w (put_file p bs w).
Proof.
  intros Hp q Hq. apply put_file_lookup_ne. intros ->. by apply Hq.
Qed.

Lemma files_print (P : path → Prop) (s : string) :
  respects (same_files_outside P) (print s).
Proof. intros w w' r [= <- _]. apply files_set_console. Qed.

Lemma files_gzip_open_wb (P : path → Prop) (p : path) :
  P p → respects (same_files_outside P) (gzip_open_wb p).
Proof.
  intros Hp w w' r. unfold gzip_open_wb. destruct (_ || _); intros [= <- _];
    [reflexivity | by apply files_put_file].
Qed.

Lemma files_open_w_close (P : path → Prop) (p : path) :
  P p → respects (same_files_outside P) (open_w_close p).
Proof.
  intros Hp w w' r. unfold open_w_close. destruct (_ || _); intros [= <- _];
    [reflexivity | by apply files_put_file].
Qed.

Lemma files_open_a_write (P : path → Prop) (p : path) (s : string) :
  P p → respects (same_files_outside P) (open_a_write p s).
Proof.
  intros Hp. unfold open_a_write. apply respects_bind; [apply _ | |]; [|intros _].
  - intros w w' r. unfold open_a. destruct (_ || _); [intros [= <- _]; reflexivity|].
    destruct (files w !! p); intros [= <- _]; [reflexivity | by apply files_put_file].
  - intros w w' r. unfold file_write.
    destruct (encode_fails _ s); [intros [= <- _]; reflexivity|].
    destruct (write_fails _ p); intros [= <- _]; by apply files_put_file.
Qed.

Lemma files_copyfileobj (P : path → Prop) gz (src dst : path) :
  P dst → respects (same_files_outside P) (copyfileobj gz src dst).
Proof.
  intros Hp w w' r. unfold copyfileobj.
  destruct (copy_fails _ _); [intros [= <- _]; by apply files_put_file|].
  destruct (files w !! src); intros [= <- _]; [by apply files_put_file | reflexivity].
Qed.

Lemma files_compress_log (P : path → Prop) gz (fp ap : path) :
  P ap → respects (same_files_outside P) (compress_log gz fp ap).
Proof.
  intros Hp. unfold compress_log.
  apply respects_bind; [apply _ | apply (respects_pure _ _ (pure_open_rb fp)) |]. intros _.
  apply respects_bind; [apply _ | by apply files_gzip_open_wb |]. intros _.
  by apply files_copyfileobj.
Qed.

Lemma files_cleanup (self : ModelLogger) :
  respects (same_files_outside (own_file self)) (_cleanup_old_archives self).
Proof.
  intros w w' r Hrun p Hp.
  destruct (cleanup_removes_only_archives self w w' r p Hrun) as [?|[_ Hown]]; [done|].
  exfalso. apply Hp. by right.
Qed.

Lemma archive_path_own (self : ModelLogger) (fp : path) (d : dirpath) (t : datetime) :
  file_path self = Some fp → archive_dir self = Some d →
  own_file self (join d (archive_name_at fp t)).
Proof.
  intros Hfp Had. right. exists fp. split; [done|]. split; [done|].
  apply archive_name_is_archive.
Qed.

Lemma files_rotate gz (self : ModelLogger) :
  respects (same_files_outside (own_file self)) (_rotate_log_file gz self).
Proof.
  intros w w' r Hrun.
  destruct (file_path self) as [fp|] eqn:Hfp.
  2:{ rewrite (rotate_no_path gz self w Hfp) in Hrun. injection Hrun as <- _. reflexivity. }
  destruct (files w !! fp) as [f|] eqn:Hf.
  2:{ rewrite (rotate_absent gz self fp w Hfp Hf) in Hrun.
      injection Hrun as <- _. reflexivity. }
  destruct (Z.lt_ge_cases (file_size f) (max_file_size self)) as [Hlt|Hdue].
  { rewrite (rotate_small gz self fp f w Hfp Hf Hlt) in Hrun.
    injection Hrun as <- _. reflexivity. }
  destruct (archive_dir self) as [d|] eqn:Had.
  2:{ rewrite (rotate_due_no_archive_dir gz self fp f w Hfp Had Hf Hdue) in Hrun.
      injection Hrun as <- _. reflexivity. }
  rewrite (rotate_due_unfold gz self fp d f w Hfp Had Hf Hdue) in Hrun.
  revert Hrun. apply respects_try_except; [apply _ | | intros e; apply files_print].
  apply respects_bind;
    [apply _ | apply files_compress_log; by apply archive_path_own |]. intros _.
  apply respects_bind; [apply _ | apply files_open_w_close; by left |]. intros _.
  apply files_cleanup.
Qed.

Lemma files_write_to_file gz (self : ModelLogger) (message : string) :
  respects (same_files_outside (own_file self)) (_write_to_file gz self message).
Proof.
  unfold _write_to_file. destruct (file_path self) as [fp|] eqn:Hfp;
    [|apply respects_ret; apply _].
  apply respects_bind; [apply _ | apply files_rotate |]. intros _.
  apply files_open_a_write. by left.
Qed.

(** ** The logging call *)

Lemma log_passes gz (self : ModelLogger) (lvl message : string) (w : world) :
  _should_log self lvl = Ok true →
  _log gz self lvl message w
  = (print (colour_line self lvl message (wall w)) ;;
     match file_path self with
     | Some _ => _write_to_file gz self (plain_line self lvl message (wall w))
     | None => ret tt
     end) w.
Proof. intros H. unfold _log, bind at 1, lift. rewrite H. reflexivity. Qed.

Lemma log_cases gz (self : ModelLogger) (lvl message : string) (w : world) :
  (∃ e, _log gz self lvl message w = (w, Raise e)) ∨
  _log gz self lvl message w = (w, Ok tt) ∨
  _should_log self lvl = Ok true.
Proof.
  unfold _log, bind at 1, lift. destruct (_should_log self lvl) as [[]|e]; eauto.
Qed.

(** X1: whatever a logging call does and however it ends, the only files
    that differ afterwards are the logger's own: its log file and the
    archives of that log (names starting with the log's base name and
    ending in .gz) in its archive directory.  The set of directories is
    not changed either. *)
Theorem log_touches_only_own_files gz (self : ModelLogger) (lvl message : string)
    (w w' : world) (r : result unit) :
  _log gz self lvl message w = (w', r) →
  (∀ p, ¬ own_file self p → files w' !! p = files w !! p) ∧ dirs w' = dirs w.
Proof.
  intros Hrun.
  destruct (log_cases gz self lvl message w) as [[e He]|[He|Hpass]];
    [rewrite He in Hrun; by injection Hrun as <- _..|].
  rewrite (log_passes gz self lvl message w Hpass) in Hrun. split.
  - revert Hrun. apply (respects_bind (same_files_outside (own_file self)));
      [apply files_print|]. intros _.
    destruct (file_path self); [apply files_write_to_file | apply respects_ret; apply _].
  - revert Hrun. unfold bind, print. destruct (file_path self).
    + destruct (_write_to_file gz self _ _) as [w2 r2] eqn:E.
      apply preserves_write_to_file in E as (Hd & _). intros H.
      assert (w' = w2) as -> by (destruct r2; by injection H). exact Hd.
    + by intros [= <- _].
Qed.

Lemma notes_file_not_own : ¬ own_file warning_logger notes_file.
Proof.
  intros [H|(fp & Hfp & _ & Ha)]; [discriminate H|].
  injection Hfp as <-. vm_compute in Ha. discriminate Ha.
Defined.

Lemma log_touches_only_own_files_witness :
  files (fst (error store_compress warning_logger "disk full" crowded_world)) !! notes_file
  = files crowded_world !! notes_file.
Proof.
  exact (proj1 (log_touches_only_own_files store_compress warning_logger "ERROR"
                  "disk full" crowded_world _ _ (surjective_pairing _))
           notes_file notes_file_not_own).
Defined.

Lemma write_result_ends_with_record gz (self : ModelLogger) (fp : path)
    (message : string) (w w' : world) :
  file_path self = Some fp → _write_to_file gz self message w = (w', Ok tt) →
  ∃ before, data <$> files w' !! fp = Some (before ++ record_bytes message).
Proof.
  intros Hfp. unfold _write_to_file. rewrite Hfp. unfold bind.
  destruct (_rotate_log_file gz self w) as [w1 [[]|e]]; [|discriminate].
  intros Hw. apply open_a_write_result in Hw. subst w'.
  eexists. by rewrite put_file_lookup_eq.
Qed.

(** X2: a message that passes the level filter is printed first, as the
    colour code of its level, the line [timestamp] LEVEL name: message
    with the level padded to eight columns, and the reset code.  Without
    a file path that is all: the call returns normally and the disk is
    untouched.  With a file path the printed line stays on the console
    whatever the file operations do, even when they raise; and when the
    call returns normally the log file ends with the same line without
    the colour codes, followed by a newline. *)
Theorem log_prints_then_writes gz (self : ModelLogger) (lvl message : string) (w : world) :
  _should_log self lvl = Ok true →
  let line := colour_line self lvl message (wall w) in
  let run := _log gz self lvl message w in
  (file_path self = None →
     run = (set_console (console w ++ [line]) w, Ok tt)) ∧
  (∃ rest, console (fst run) = console w ++ line :: rest) ∧
  (∀ fp, file_path self = Some fp → snd run = Ok tt →
     ∃ before, data <$> files (fst run) !! fp
               = Some (before ++ record_bytes (plain_line self lvl message (wall w)))).
Proof.
  intros Hpass line run. subst run. rewrite (log_passes gz self lvl message w Hpass).
  fold line.
  split; [by intros ->|]. split.
  - unfold bind, print. destruct (file_path self) as [fp|]; [|exists []; reflexivity].
    destruct (_write_to_file gz self _ _) as [w2 r2] eqn:E.
    apply console_write_to_file in E as [rest E]. cbn [console set_console] in E.
    exists rest. cbn [fst]. by rewrite E, <- app_assoc.
  - intros fp Hfp. rewrite Hfp. unfold bind, print.
    destruct (_write_to_file gz self _ _) as [w2 [[]|e]] eqn:E; [|discriminate].
    intros _. cbn [fst]. exact (write_result_ends_with_record _ _ _ _ _ _ Hfp E).
Qed.

Lemma log_prints_then_writes_witness :
  ∃ rest,
    console (fst (_log store_compress warning_logger "ERROR" "disk full" read_only_log_world))
    = (esc "[31m" +:+ "[2024-03-09 12:00:00] ERROR    ModelLogger: disk full"
         +:+ esc "[0m") :: rest.
Proof.
  exact (proj1 (proj2 (log_prints_then_writes store_compress warning_logger "ERROR"
                         "disk full" read_only_log_world eq_refl))).
Defined.

(** The four outcomes of the appending [with] block. *)
Lemma open_a_write_outcome (p : path) (s : string) (w : world) :
  let old := match files w !! p with Some f => data f | None => [] end in
  let opened := match files w !! p with Some _ => w | None => put_file p [] w end in
  (¬ can_append w p → open_a_write p s w = (w, Raise OSError)) ∧
  (can_append w p → encode_fails (env w) s = true →
     open_a_write p s w = (opened, Raise UnicodeEncodeError)) ∧
  (can_append w p → encode_fails (env w) s = false →
     ∀ k, write_fails (env w) p = Some k →
          open_a_write p s w = (put_file p (old ++ take k (encode s)) w, Raise OSError)) ∧
  (can_write w p s → open_a_write p s w = (put_file p (old ++ encode s) w, Ok tt)).
Proof.
  intros old opened.
  assert (He : env opened = env w) by (unfold opened; by destruct (files w !! p)).
  split; [|split; [|split]].
  - intros Hno. unfold open_a_write. apply bind_raise. by apply open_a_fails.
  - intros Happ Henc. unfold open_a_write.
    rewrite (bind_ok _ _ _ _ _ (open_a_ok p w Happ)). fold opened.
    unfold file_write. by rewrite He, Henc.
  - intros Happ Henc k Hk. unfold open_a_write.
    rewrite (bind_ok _ _ _ _ _ (open_a_ok p w Happ)). fold opened.
    unfold file_write. rewrite He, Henc, Hk. unfold opened, old.
    by rewrite file_write_old, put_after_open.
  - apply open_a_write_ok.
Qed.

(** X3: the first write to a log file that does not exist yet.  No
    rotation takes place.  When the appending open fails (a missing
    directory, for one), [_write_to_file] raises [OSError] and nothing
    on disk or console has changed.  Once the open has gone through the
    file exists: it is empty when the text cannot be encoded
    ([UnicodeEncodeError]), it holds the first bytes of the record when
    the write breaks part-way ([OSError]), and it holds exactly the
    record (the message and a newline) when the call returns
    normally. *)
Theorem write_creates_missing_log gz (self : ModelLogger) (fp : path)
    (message : string) (w : world) :
  file_path self = Some fp → files w !! fp = None →
  (¬ can_append w fp →
     _write_to_file gz self message w = (w, Raise OSError)) ∧
  (can_append w fp → encode_fails (env w) (record_text message) = true →
     _write_to_file gz self message w = (put_file fp [] w, Raise UnicodeEncodeError)) ∧
  (can_append w fp → encode_fails (env w) (record_text message) = false →
     ∀ k, write_fails (env w) fp = Some k →
          _write_to_file gz self message w
          = (put_file fp (take k (record_bytes message)) w, Raise OSError)) ∧
  (can_write w fp (record_text message) →
     _write_to_file gz self message w = (put_file fp (record_bytes message) w, Ok tt)).
Proof.
  intros Hfp Hf.
  assert (Hw : _write_to_file gz self message w
               = open_a_write fp (record_text message) w).
  { unfold _write_to_file. rewrite Hfp.
    by rewrite (bind_ok _ _ _ _ _ (rotate_absent gz self fp w Hfp Hf)). }
  rewrite Hw.
  destruct (open_a_write_outcome fp (record_text message) w) as (H1 & H2 & H3 & H4).
  rewrite Hf in H2, H3, H4. cbn [app] in H3, H4. by repeat split.
Qed.

Lemma write_creates_missing_log_witness :
  _write_to_file store_compress warning_logger "first" bare_world
  = (put_file app_log (record_bytes "first") bare_world, Ok tt).
Proof.
  apply (proj2 (proj2 (proj2 (write_creates_missing_log store_compress warning_logger
                                app_log "first" bare_world eq_refl eq_refl)))).
  split; [|by split]. split; [|reflexivity].
  refine (bool_decide_unpack _ _). vm_compute. exact I.
Defined.

Lemma try_except_print_returns (m : IO unit) (h : exn → string) (w : world) :
  snd (try_except m (λ e, print (h e)) w) = Ok tt.
Proof. unfold try_except. by destruct (m w) as [w1 [[]|e]]. Qed.

Lemma rotate_returns gz (self : ModelLogger) (w : world) :
  file_path self = None ∨ is_Some (archive_dir self) →
  snd (_rotate_log_file gz self w) = Ok tt.
Proof.
  intros Hcfg. destruct (file_path self) as [fp|] eqn:Hfp;
    [|by rewrite (rotate_no_path gz self w Hfp)].
  destruct Hcfg as [?|[d Had]]; [done|].
  destruct (files w !! fp) as [f|] eqn:Hf;
    [|by rewrite (rotate_absent gz self fp w Hfp Hf)].
  destruct (Z.lt_ge_cases (file_size f) (max_file_size self)) as [Hlt|Hdue];
    [by rewrite (rotate_small gz self fp f w Hfp Hf Hlt)|].
  rewrite (rotate_due_unfold gz self fp d f w Hfp Had Hf Hdue).
  apply (try_except_print_returns _ (λ e, "Error during log rotation: " +:+ exn_str e)).
Qed.

(** X4: [_rotate_log_file] never raises for a logger without a file path
    or with an archive directory, in any state of the disk and under any
    failure of the system calls: every exception of the rotation is
    caught.  With a file path but no archive directory (which the
    constructor never builds) a due rotation raises [TypeError] before
    anything is done. *)
Theorem rotate_never_raises gz (self : ModelLogger) (w : world) :
  (file_path self = None ∨ is_Some (archive_dir self) →
     snd (_rotate_log_file gz self w) = Ok tt) ∧
  (∀ fp f, file_path self = Some fp → archive_dir self = None →
           files w !! fp = Some f → max_file_size self <= file_size f →
           _rotate_log_file gz self w = (w, Raise TypeError)).
Proof.
  split; [apply rotate_returns|].
  intros fp f. apply rotate_due_no_archive_dir.
Qed.

Lemma rotate_never_raises_witness :
  snd (_rotate_log_file store_compress warning_logger read_only_log_world) = Ok tt.
Proof.
  apply (proj1 (rotate_never_raises store_compress warning_logger read_only_log_world)).
  right. by eexists.
Defined.

(** X5: for a logger with a file path and an archive directory the
    rotation step of [_write_to_file] always returns, so the call is the
    appending [with] block run on what the rotation left, and the only
    exceptions it can raise are that block's: [OSError] (the open, or
    the write) and [UnicodeEncodeError].  When the open fails nothing
    is written.  Whenever the call raises, no file other than the log
    differs from what the rotation left, and the log is either as the
    rotation left it or holds what the rotation left followed by the
    first bytes (possibly none) of the record.  When the whole append
    goes through the call returns normally with the record appended. *)
Theorem write_raises_only_on_append gz (self : ModelLogger) (fp : path) (d : dirpath)
    (message : string) (w : world) :
  file_path self = Some fp → archive_dir self = Some d →
  ∃ w1, _rotate_log_file gz self w = (w1, Ok tt) ∧
        let old := match files w1 !! fp with Some f => data f | None => [] end in
        _write_to_file gz self message w = open_a_write fp (record_text message) w1 ∧
        (¬ can_append w fp →
           _write_to_file gz self message w = (w1, Raise OSError)) ∧
        (can_write w fp (record_text message) →
           _write_to_file gz self message w
           = (put_file fp (old ++ record_bytes message) w1, Ok tt)) ∧
        (∀ w' e, _write_to_file gz self message w = (w', Raise e) →
           (e = OSError ∨ e = UnicodeEncodeError) ∧
           (∀ p, p ≠ fp → files w' !! p = files w1 !! p) ∧
           (files w' !! fp = files w1 !! fp ∨
            ∃ k, data <$> files w' !! fp = Some (old ++ take k (record_bytes message)))).
Proof.
  intros Hfp Had.
  pose proof (rotate_returns gz self w (or_intror (ex_intro _ d Had))) as Hret.
  destruct (_rotate_log_file gz self w) as [w1 r1] eqn:Hrot. cbn in Hret. subst r1.
  exists w1. split; [done|]. intros old.
  pose proof (preserves_rotate gz self _ _ _ Hrot) as (Hdirs & Henv & _).
  assert (Hw : _write_to_file gz self message w
               = open_a_write fp (record_text message) w1).
  { unfold _write_to_file. rewrite Hfp. by rewrite (bind_ok _ _ _ _ _ Hrot). }
  assert (Hca : can_append w1 fp ↔ can_append w fp).
  { unfold can_append. by rewrite Hdirs, Henv. }
  destruct (open_a_write_outcome fp (record_text message) w1) as (H1 & H2 & H3 & H4).
  split; [exact Hw|]. rewrite Hw. split; [|split].
  - intros Hno. apply H1. by rewrite Hca.
  - intros (Happ & Henc & Hwr). apply H4. unfold can_write. by rewrite Hca, Henv.
  - intros w' e Hraise.
    destruct (decide (dirname fp ∈ dirs w1)) as [Hd|Hd].
    2:{ rewrite H1 in Hraise by (intros [? _]; done). injection Hraise as <- <-.
        split; [by left|]. split; [done | by left]. }
    destruct (append_fails (env w1) fp) eqn:Ea.
    { rewrite H1 in Hraise by (intros [_ ?]; congruence). injection Hraise as <- <-.
      split; [by left|]. split; [done | by left]. }
    assert (Happ : can_append w1 fp) by done.
    destruct (encode_fails (env w1) (record_text message)) eqn:Ee.
    { rewrite (H2 Happ eq_refl) in Hraise. injection Hraise as <- <-.
      split; [by right|]. split.
      - intros p Hp. destruct (files w1 !! fp); [done|]. by apply put_file_lookup_ne.
      - destruct (files w1 !! fp) as [f|] eqn:Ef; [by left|].
        right. exists 0%nat. rewrite put_file_lookup_eq. subst old.
        rewrite ?Ef. reflexivity. }
    destruct (write_fails (env w1) fp) as [k|] eqn:Ew.
    { rewrite (H3 Happ eq_refl k eq_refl) in Hraise. injection Hraise as <- <-.
      split; [by left|]. split.
      - intros p Hp. by apply put_file_lookup_ne.
      - right. exists k. by rewrite put_file_lookup_eq. }
    rewrite H4 in Hraise by done. discriminate Hraise.
Qed.

Lemma write_raises_only_on_append_witness :
  ∃ w1, _write_to_file store_compress warning_logger "late" read_only_log_world
        = (w1, Raise OSError).
Proof.
  destruct (write_raises_only_on_append store_compress warning_logger app_log
              app_archive "late" read_only_log_world eq_refl eq_refl)
    as (w1 & _ & _ & Hraise & _).
  exists w1. apply Hraise. intros [_ Ha]. vm_compute in Ha. discriminate Ha.
Defined.

(** X6: [_log] called with a level name that is not a key of
    [LOG_LEVELS], or on an object whose own level is not one, raises
    [KeyError] before anything is printed or written. *)
Theorem log_unknown_level_raises gz (self : ModelLogger) (lvl message : string) (w : world) :
  lvl ∉ level_names ∨ level self ∉ level_names →
  _should_log self lvl = Raise KeyError ∧
  _log gz self lvl message w = (w, Raise KeyError).
Proof.
  intros H.
  assert (Hs : _should_log self lvl = Raise KeyError).
  { unfold _should_log. destruct H as [H|H]; apply priority_None in H;
      unfold priority in H; rewrite H; [done|]. by destruct (LOG_LEVELS !! lvl). }
  split; [exact Hs|]. unfold _log, bind, lift. by rewrite Hs.
Qed.

Lemma log_unknown_level_raises_witness :
  _log store_compress warning_logger "TRACE" "x" bare_world = (bare_world, Raise KeyError).
Proof.
  apply (log_unknown_level_raises store_compress warning_logger "TRACE" "x" bare_world).
  left. vm_compute. intros H.
  repeat (inversion H as [|? ? ? H0]; clear H; rename H0 into H; subst).
Defined.

(** ** The constructor and the level *)

Lemma init_with_path (name_arg : option string) (fp : path) (tf : option string)
    (lvl : string) (mfs bc : Z) (ad : option dirpath) (w : world) :
  __init__ name_arg (Some fp) tf lvl mfs bc ad w
  = (os_makedirs (chosen_archive_dir fp ad) ;;
     match LOG_LEVELS !! upper lvl with
     | None => raise ValueError
     | Some _ =>
         ret {| name := if truthy name_arg then default "ModelLogger" name_arg
                        else "ModelLogger";
                file_path := Some fp; timestamp_format := tf; level := upper lvl;
                max_file_size := mfs; backup_count := bc;
                archive_dir := Some (chosen_archive_dir fp ad) |}
     end) w.
Proof. unfold __init__, chosen_archive_dir. by destruct ad. Qed.

Lemma init_without_path (name_arg : option string) (tf : option string)
    (lvl : string) (mfs bc : Z) (ad : option dirpath) (w : world) :
  __init__ name_arg None tf lvl mfs bc ad w
  = match LOG_LEVELS !! upper lvl with
    | None => (w, Raise ValueError)
    | Some _ =>
        (w, Ok {| name := if truthy name_arg then default "ModelLogger" name_arg
                          else "ModelLogger";
                  file_path := None; timestamp_format := tf; level := upper lvl;
                  max_file_size := mfs; backup_count := bc; archive_dir := ad |})
    end.
Proof.
  unfold __init__, bind, ret, raise. destruct ad; by destruct (LOG_LEVELS !! upper lvl).
Qed.

Lemma truthy_name_nonempty (name_arg : option string) :
  (if truthy name_arg then default "ModelLogger" name_arg else "ModelLogger") ≠ "".
Proof.
  destruct name_arg as [s|]; cbn; [|done].
  destruct (String.eqb_spec s ""); cbn; [done|]. done.
Qed.

(** X7: what a successful construction establishes.  The level of the
    object is the uppercased argument and is one of the five names, the
    name is not empty ("ModelLogger" stands in for a missing or empty
    one), and no file is touched.  With a file path the archive
    directory is the given one or, by default, logs/archive next to the
    log file; it is on disk with all its ancestors, so with the default
    the directory of the log file itself is on disk too. *)
Theorem init_establishes (name_arg : option string) (fpo : option path)
    (tf : option string) (lvl : string) (mfs bc : Z) (ad : option dirpath)
    (w w' : world) (self : ModelLogger) :
  __init__ name_arg fpo tf lvl mfs bc ad w = (w', Ok self) →
  level self = upper lvl ∧ level self ∈ level_names ∧ name self ≠ "" ∧
  file_path self = fpo ∧ timestamp_format self = tf ∧
  max_file_size self = mfs ∧ backup_count self = bc ∧
  files w' = files w ∧
  (∀ fp, fpo = Some fp →
     archive_dir self = Some (chosen_archive_dir fp ad) ∧
     (∀ q, q `prefix_of` chosen_archive_dir fp ad → q ∈ dirs w') ∧
     (ad = None → dirname fp ∈ dirs w')) ∧
  (fpo = None → archive_dir self = ad ∧ w' = w).
Proof.
  destruct fpo as [fp|].
  - rewrite init_with_path. unfold bind.
    destruct (os_makedirs (chosen_archive_dir fp ad) w) as [w1 [[]|e]] eqn:Emk;
      [|discriminate].
    destruct (LOG_LEVELS !! upper lvl) as [pr|] eqn:Elvl; [|discriminate].
    intros [= <- <-]. cbn [level name file_path timestamp_format max_file_size
                           backup_count archive_dir].
    assert (Hw1 : w1 = set_dirs (dirs w ∪ list_to_set (ancestors (chosen_archive_dir fp ad))) w).
    { revert Emk. unfold os_makedirs. destruct (makedirs_fails _ _); by intros [= <-]. }
    assert (Hin : ∀ q, q `prefix_of` chosen_archive_dir fp ad → q ∈ dirs w1).
    { intros q Hq. subst w1. cbn [dirs set_dirs].
      apply elem_of_union_r, elem_of_list_to_set. by apply prefix_in_ancestors. }
    split; [done|]. split; [apply priority_Some; by exists pr|].
    split; [apply truthy_name_nonempty|]. do 4 (split; [done|]).
    split; [by subst w1|]. split; [|done].
    intros fp' [= <-]. split; [done|]. split; [exact Hin|].
    intros ->. apply Hin. by exists ["logs"; "archive"].
  - rewrite init_without_path.
    destruct (LOG_LEVELS !! upper lvl) as [pr|] eqn:Elvl; [|discriminate].
    intros [= <- <-]. cbn [level name file_path timestamp_format max_file_size
                           backup_count archive_dir].
    split; [done|]. split; [apply priority_Some; by exists pr|].
    split; [apply truthy_name_nonempty|]. do 5 (split; [done|]). by split.
Qed.

Lemma init_establishes_witness :
  ∃ w' self,
    __init__ None (Some app_log) None "info" 10 2 None bare_world = (w', Ok self) ∧
    level self = "INFO" ∧ archive_dir self = Some app_archive ∧
    app_archive ∈ dirs w' ∧ dirname app_log ∈ dirs w'.
Proof.
  assert (E : ∃ self, __init__ None (Some app_log) None "info" 10 2 None bare_world
              = (fst (__init__ None (Some app_log) None "info" 10 2 None bare_world),
                 Ok self)).
  { eexists. rewrite (surjective_pairing (__init__ _ _ _ _ _ _ _ _)) at 1.
    f_equal. }
  destruct E as [self E].
  destruct (init_establishes _ _ _ _ _ _ _ _ _ _ E)
    as (Hl & _ & _ & _ & _ & _ & _ & _ & Hp & _).
  destruct (Hp app_log eq_refl) as (Had & Hdirs & Hlogdir).
  eexists _, _. split; [exact E|]. split; [exact Hl|]. split; [exact Had|].
  split; [apply Hdirs; by exists [] | by apply Hlogdir].
Defined.

(** X8: the constructor returns an object exactly when the uppercased
    level is one of the five names and, if a file path is given,
    [os.makedirs] of the archive directory goes through. *)
Theorem init_succeeds_iff (name_arg : option string) (fpo : option path)
    (tf : option string) (lvl : string) (mfs bc : Z) (ad : option dirpath) (w : world) :
  (∃ w' self, __init__ name_arg fpo tf lvl mfs bc ad w = (w', Ok self)) ↔
  upper lvl ∈ level_names ∧
  (∀ fp, fpo = Some fp → makedirs_fails (env w) (chosen_archive_dir fp ad) = false).
Proof.
  rewrite <- priority_Some. unfold priority. destruct fpo as [fp|].
  - rewrite init_with_path. unfold bind, os_makedirs. split.
    + intros (w' & self & H).
      destruct (makedirs_fails (env w) (chosen_archive_dir fp ad)) eqn:Emk; [discriminate|].
      destruct (LOG_LEVELS !! upper lvl) eqn:Elvl; [|discriminate].
      split; [by eexists|]. by intros fp' [= <-].
    + intros [[pr Hpr] Hmk]. rewrite (Hmk fp eq_refl), Hpr. by eexists _, _.
  - rewrite init_without_path. split.
    + intros (w' & self & H). destruct (LOG_LEVELS !! upper lvl); [|discriminate].
      split; [by eexists | done].
    + intros [[pr Hpr] _]. rewrite Hpr. by eexists _, _.
Qed.

Lemma ancestors_prefix (q d : dirpath) : q ∈ ancestors d → q `prefix_of` d.
Proof.
  unfold ancestors. intros (j & -> & _)%list_elem_of_fmap. apply prefix_take.
Qed.

Lemma made_before_failure_short (w : world) (d : dirpath) (q : dirpath) :
  q ∈ ancestors (made_before_failure w d) →
  q `prefix_of` d ∧ (d ≠ [] → q ≠ d).
Proof.
  intros Hq%ancestors_prefix. unfold made_before_failure in Hq. split.
  - etrans; [exact Hq | apply prefix_take].
  - intros Hd ->. apply prefix_length in Hq. rewrite length_take in Hq.
    destruct d; [done|]. cbn in Hq. lia.
Qed.

(** X9: when a file path is given and [os.makedirs] fails, the
    constructor raises that [OSError], whether or not the level name is
    valid: the directory is made before the level is checked.  No file
    and nothing on the console has changed; the directories that are
    new are leading parts of the archive directory, which itself has
    not been made. *)
Theorem init_makedirs_failure_first (name_arg : option string) (fp : path)
    (tf : option string) (lvl : string) (mfs bc : Z) (ad : option dirpath) (w : world) :
  makedirs_fails (env w) (chosen_archive_dir fp ad) = true →
  ∃ w', __init__ name_arg (Some fp) tf lvl mfs bc ad w = (w', Raise OSError) ∧
        files w' = files w ∧ console w' = console w ∧
        dirs w ⊆ dirs w' ∧
        ∀ q, q ∈ dirs w' → q ∉ dirs w →
             q `prefix_of` chosen_archive_dir fp ad ∧
             (chosen_archive_dir fp ad ≠ [] → q ≠ chosen_archive_dir fp ad).
Proof.
  intros Hmk. rewrite init_with_path. unfold bind, os_makedirs. rewrite Hmk.
  eexists. split; [reflexivity|]. cbn [files console dirs set_dirs].
  split; [done|]. split; [done|]. split; [set_solver|].
  intros q Hq Hnew. apply made_before_failure_short with (w := w).
  apply elem_of_union in Hq as [?|Hq]; [done|]. by apply elem_of_list_to_set in Hq.
Qed.

Lemma init_makedirs_failure_first_witness :
  ∃ w', __init__ None (Some app_log) None "bogus" 10 2 None locked_world
        = (w', Raise OSError) ∧
        files w' = files locked_world ∧ console w' = console locked_world.
Proof.
  destruct (init_makedirs_failure_first None app_log None "bogus" 10 2 None locked_world
              eq_refl) as (w' & Hrun & Hf & Hc & _).
  by exists w'.
Defined.

Example init_partial_makedirs_example :
  let w' := fst (__init__ None (Some app_log) None "info" 10 2 None locked_world) in
  bool_decide (["srv"; "app"; "logs"] ∈ dirs w') = true ∧
  bool_decide (app_archive ∈ dirs w') = false.
Proof. vm_compute. split; reflexivity. Qed.

(** X10: constructing without a file path never touches the disk, even
    when an archive directory is passed: nothing is created, the given
    archive directory is only stored, and the outcome depends on the
    level name alone. *)
Theorem init_console_only (name_arg : option string) (tf : option string)
    (lvl : string) (mfs bc : Z) (ad : option dirpath) (w : world) :
  fst (__init__ name_arg None tf lvl mfs bc ad w) = w ∧
  (upper lvl ∈ level_names →
     ∃ self, snd (__init__ name_arg None tf lvl mfs bc ad w) = Ok self ∧
             archive_dir self = ad ∧ file_path self = None) ∧
  (upper lvl ∉ level_names →
     snd (__init__ name_arg None tf lvl mfs bc ad w) = Raise ValueError).
Proof.
  rewrite init_without_path. split; [by destruct (LOG_LEVELS !! upper lvl)|]. split.
  - intros [pr Hpr]%priority_Some. unfold priority in Hpr. rewrite Hpr. by eexists.
  - intros Hno%priority_None. unfold priority in Hno. by rewrite Hno.
Qed.

Lemma init_console_only_witness :
  ∃ self, snd (__init__ None None None "debug" 10 2 (Some app_archive) locked_world)
          = Ok self ∧ archive_dir self = Some app_archive ∧ file_path self = None.
Proof.
  apply (proj1 (proj2 (init_console_only None None "debug" 10 2 (Some app_archive)
                         locked_world))).
  vm_compute. repeat constructor.
Defined.

(** ** Changing the level *)

Lemma set_level_keeps_valid (self : ModelLogger) (s : string) :
  level self ∈ level_names → level (fst (set_level self s)) ∈ level_names.
Proof.
  intros H. unfold set_level. destruct (LOG_LEVELS !! upper s) as [pr|] eqn:E; [|done].
  cbn. apply priority_Some. by exists pr.
Qed.

Lemma set_level_other_fields (self : ModelLogger) (s : string) :
  let self' := fst (set_level self s) in
  name self' = name self ∧ file_path self' = file_path self ∧
  timestamp_format self' = timestamp_format self ∧
  max_file_size self' = max_file_size self ∧
  backup_count self' = backup_count self ∧ archive_dir self' = archive_dir self.
Proof. unfold set_level. by destruct (LOG_LEVELS !! upper s). Qed.

(** X11: through any series of [set_level] calls, failed ones included,
    an object whose level is one of the five names keeps such a level,
    so [_should_log] answers (never [KeyError]) for each of the five
    message levels; and the calls change nothing but the level. *)
Theorem set_levels_keep_level_valid (self : ModelLogger) (names : list string) :
  level self ∈ level_names →
  level (set_levels self names) ∈ level_names ∧
  (∀ lvl, lvl ∈ level_names → ∃ b, _should_log (set_levels self names) lvl = Ok b) ∧
  name (set_levels self names) = name self ∧
  file_path (set_levels self names) = file_path self ∧
  timestamp_format (set_levels self names) = timestamp_format self ∧
  max_file_size (set_levels self names) = max_file_size self ∧
  backup_count (set_levels self names) = backup_count self ∧
  archive_dir (set_levels self names) = archive_dir self.
Proof.
  intros Hvalid.
  assert (H : level (set_levels self names) ∈ level_names ∧
              name (set_levels self names) = name self ∧
              file_path (set_levels self names) = file_path self ∧
              timestamp_format (set_levels self names) = timestamp_format self ∧
              max_file_size (set_levels self names) = max_file_size self ∧
              backup_count (set_levels self names) = backup_count self ∧
              archive_dir (set_levels self names) = archive_dir self).
  { unfold set_levels. revert self Hvalid.
    induction names as [|s names IH]; intros self Hvalid; [done|]. cbn [foldl].
    destruct (IH _ (set_level_keeps_valid self s Hvalid)) as (? & ? & ? & ? & ? & ? & ?).
    destruct (set_level_other_fields self s) as (? & ? & ? & ? & ? & ?).
    repeat split; congruence. }
  destruct H as (Hl & Hrest). split; [exact Hl|]. split; [|exact Hrest].
  intros lvl Hlvl. apply priority_Some in Hl as [pm Hpm], Hlvl as [pl Hpl].
  unfold priority in *. unfold _should_log. rewrite Hpl, Hpm. by eexists.
Qed.

Lemma set_levels_keep_level_valid_witness :
  level (set_levels warning_logger ["debug"; "bogus"; "Error"; ""]) ∈ level_names.
Proof.
  apply (set_levels_keep_level_valid warning_logger ["debug"; "bogus"; "Error"; ""]).
  vm_compute. repeat constructor.
Defined.

Example set_levels_example :
  level (set_levels warning_logger ["debug"; "bogus"; "Error"; ""]) = "ERROR".
Proof. reflexivity. Qed.

(** ** Pruning, for every retention count *)

Lemma slice_from_drop {A} (k : Z) (l : list A) :
  slice_from k l = drop (slice_start k (length l)) l.
Proof. unfold slice_from, slice_start. by destruct (k <? 0). Qed.

Lemma size_of_listed (m : gmap path file) (l : list path) :
  NoDup l → (∀ p, is_Some (m !! p) ↔ p ∈ l) → size m = length l.
Proof.
  intros Hnd Hiff. rewrite <- size_dom, <- (size_list_to_set (C:=gset path) l Hnd).
  f_equal. apply set_eq. intros p. by rewrite elem_of_dom, elem_of_list_to_set.
Qed.

Lemma is_Some_archives_in (base : string) (d : dirpath) (w : world) (p : path) :
  is_Some (archives_in base d w !! p) ↔
  is_Some (files w !! p) ∧ dirname p = d ∧ is_archive base (basename p) = true.
Proof.
  split.
  - intros [fl H]. apply elem_of_archives_in in H as (? & ? & ?). by split; [exists fl|].
  - intros ([fl H] & ? & ?). exists fl. by apply elem_of_archives_in.
Qed.

Lemma sorted_archives_length (base : string) (d : dirpath) (w : world) :
  length (sorted_archives base d w) = archive_count base d w.
Proof.
  unfold archive_count. rewrite <- (length_fmap fst). symmetry.
  apply size_of_listed; [apply sorted_archives_NoDup|].
  intros p. by rewrite is_Some_archives_in, sorted_archives_paths.
Qed.

(** The outcome of a pruning that could list the directory: the entries
    from position [slice_start] on are removed. *)
Lemma prune_outcome (self : ModelLogger) (fp : path) (d : dirpath) (w : world) :
  file_path self = Some fp → archive_dir self = Some d → can_list w d →
  let sorted := sorted_archives (basename fp) d w in
  let n := slice_start (backup_count self) (length sorted) in
  ∃ w', _cleanup_old_archives self w = (w', Ok tt) ∧ stable w w' ∧
        (drop n sorted = [] → w' = w) ∧
        ∀ p, files w' !! p
             = if bool_decide (p ∈ (drop n sorted).*1) && negb (remove_fails (env w) p)
               then None else files w !! p.
Proof.
  intros Hfp Had [Hd Hl] sorted n.
  destruct (for_each_remove_run (drop n sorted) w) as (w' & Hrun & Hst & Hfiles).
  exists w'. rewrite (cleanup_run self fp d w Hfp Had Hd Hl).
  fold (sorted_archives (basename fp) d w). fold sorted.
  rewrite slice_from_drop. fold n. split; [exact Hrun|]. split; [exact Hst|].
  split; [|exact Hfiles]. intros Hnil. rewrite Hnil in Hrun. by injection Hrun.
Qed.

(** After such a pruning without failed removals, the archives left are
    the first [n] of the sorted list. *)
Lemma pruned_archives (base : string) (d : dirpath) (w w' : world) (n : nat) :
  removals_succeed w →
  (∀ p, files w' !! p
        = if bool_decide (p ∈ (drop n (sorted_archives base d w)).*1)
             && negb (remove_fails (env w) p)
          then None else files w !! p) →
  ∀ p, is_Some (archives_in base d w' !! p) ↔ p ∈ (take n (sorted_archives base d w)).*1.
Proof.
  intros Hrm Hfiles p. rewrite is_Some_archives_in, Hfiles, Hrm.
  cbn [negb]. rewrite andb_true_r.
  pose proof (sorted_archives_NoDup base d w) as Hnd.
  rewrite (sorted_archives_split _ _ _ n) in Hnd.
  apply NoDup_app in Hnd as (_ & Hdisj & _).
  pose proof (sorted_archives_paths base d w p) as Hpaths.
  rewrite (sorted_archives_split _ _ _ n), elem_of_app in Hpaths.
  case_bool_decide as Hin; split.
  - intros ([? ?] & _); done.
  - intros Ht. by destruct (Hdisj p Ht).
  - intros H. apply Hpaths in H as [?|?]; done.
  - intros Ht. apply Hpaths. by left.
Qed.

Lemma pruned_count (base : string) (d : dirpath) (w w' : world) (n : nat) :
  removals_succeed w →
  (∀ p, files w' !! p
        = if bool_decide (p ∈ (drop n (sorted_archives base d w)).*1)
             && negb (remove_fails (env w) p)
          then None else files w !! p) →
  archive_count base d w' = (n `min` archive_count base d w)%nat.
Proof.
  intros Hrm Hfiles. unfold archive_count at 1.
  rewrite (size_of_listed _ (take n (sorted_archives base d w)).*1).
  - by rewrite length_fmap, length_take, sorted_archives_length.
  - pose proof (sorted_archives_NoDup base d w) as Hnd.
    rewrite (sorted_archives_split _ _ _ n) in Hnd. by apply NoDup_app in Hnd as (? & _).
  - by apply pruned_archives.
Qed.

Lemma cleanup_noop (self : ModelLogger) (fp : path) (d : dirpath) (w : world) :
  file_path self = Some fp → archive_dir self = Some d → can_list w d →
  0 <= backup_count self →
  Z.of_nat (archive_count (basename fp) d w) <= backup_count self →
  _cleanup_old_archives self w = (w, Ok tt).
Proof.
  intros Hfp Had Hl Hbc Hcount.
  destruct (prune_outcome self fp d w Hfp Had Hl) as (w' & Hrun & _ & Hnil & _).
  rewrite Hrun. f_equal. apply Hnil, drop_ge.
  rewrite sorted_archives_length. unfold slice_start.
  rewrite (proj2 (Z.ltb_ge _ 0)) by done. lia.
Qed.

(** X12: when the archive directory can be listed and holds no more
    archives of the log than a non-negative [backup_count],
    [_cleanup_old_archives] changes nothing at all: no file is removed
    and nothing is printed. *)
Theorem cleanup_within_count_is_noop (self : ModelLogger) (fp : path) (d : dirpath)
    (w : world) :
  file_path self = Some fp → archive_dir self = Some d → can_list w d →
  0 <= backup_count self →
  Z.of_nat (archive_count (basename fp) d w) <= backup_count self →
  _cleanup_old_archives self w = (w, Ok tt).
Proof. apply cleanup_noop. Qed.

Lemma crowded_can_list : can_list crowded_world app_archive.
Proof. split; [exact crowded_archive_on_disk | reflexivity]. Defined.

Lemma cleanup_within_count_is_noop_witness :
  _cleanup_old_archives warning_logger read_only_log_world
  = (read_only_log_world, Ok tt).
Proof.
  apply (cleanup_within_count_is_noop warning_logger app_log app_archive
           read_only_log_world eq_refl eq_refl).
  - split; [|reflexivity]. refine (bool_decide_unpack _ _). vm_compute. exact I.
  - by vm_compute.
  - by vm_compute.
Defined.

(** X13: pruning is idempotent for a non-negative [backup_count]: after
    a pruning in which the directory could be listed and no removal
    failed, a second pruning right away changes nothing. *)
Theorem cleanup_idempotent (self : ModelLogger) (fp : path) (d : dirpath) (w : world) :
  file_path self = Some fp → archive_dir self = Some d → can_list w d →
  removals_succeed w → 0 <= backup_count self →
  ∃ w', _cleanup_old_archives self w = (w', Ok tt) ∧
        _cleanup_old_archives self w' = (w', Ok tt).
Proof.
  intros Hfp Had Hl Hrm Hbc.
  destruct (prune_outcome self fp d w Hfp Had Hl) as (w' & Hrun & Hst & _ & Hfiles).
  exists w'. split; [exact Hrun|].
  apply (cleanup_noop self fp d w' Hfp Had); [|done|].
  - destruct Hst as (Hd & He & _). destruct Hl. split; congruence.
  - rewrite (pruned_count _ _ w w' _ Hrm Hfiles). unfold slice_start.
    rewrite (proj2 (Z.ltb_ge _ 0)) by done. lia.
Qed.

Lemma crowded_removals_succeed : removals_succeed crowded_world.
Proof. intros p. reflexivity. Defined.

Lemma cleanup_idempotent_witness :
  ∃ w', _cleanup_old_archives warning_logger crowded_world = (w', Ok tt) ∧
        _cleanup_old_archives warning_logger w' = (w', Ok tt).
Proof.
  exact (cleanup_idempotent warning_logger app_log app_archive crowded_world
           eq_refl eq_refl crowded_can_list crowded_removals_succeed
           ltac:(by vm_compute)).
Defined.

(** X14: how many archives a pruning leaves, for every [backup_count]
    (the directory can be listed, no removal fails).  A non-negative
    count keeps the smaller of the count and the number present.  A
    negative count [-k] is a Python slice from the end: the [k] oldest
    archives are removed each time and all the others are kept, so the
    number kept is not bounded. *)
Theorem cleanup_count (self : ModelLogger) (fp : path) (d : dirpath) (w : world) :
  file_path self = Some fp → archive_dir self = Some d → can_list w d →
  removals_succeed w →
  ∃ w', _cleanup_old_archives self w = (w', Ok tt) ∧
        Z.of_nat (archive_count (basename fp) d w')
        = if backup_count self <? 0
          then Z.max 0 (Z.of_nat (archive_count (basename fp) d w) + backup_count self)
          else Z.min (backup_count self) (Z.of_nat (archive_count (basename fp) d w)).
Proof.
  intros Hfp Had Hl Hrm.
  destruct (prune_outcome self fp d w Hfp Had Hl) as (w' & Hrun & _ & _ & Hfiles).
  exists w'. split; [exact Hrun|].
  rewrite (pruned_count _ _ w w' _ Hrm Hfiles), sorted_archives_length.
  unfold slice_start. destruct (backup_count self <? 0) eqn:E.
  - apply Z.ltb_lt in E. lia.
  - apply Z.ltb_ge in E. lia.
Qed.

Lemma cleanup_count_witness :
  ∃ w', _cleanup_old_archives warning_logger crowded_world = (w', Ok tt) ∧
        Z.of_nat (archive_count (basename app_log) app_archive w') = 2.
Proof.
  destruct (cleanup_count warning_logger app_log app_archive crowded_world
              eq_refl eq_refl crowded_can_list crowded_removals_succeed)
    as (w' & Hrun & Hcount).
  exists w'. split; [exact Hrun|]. rewrite Hcount. by vm_compute.
Defined.

Lemma sorted_archives_entry (base : string) (d : dirpath) (w : world) (e : path * Z) :
  e ∈ sorted_archives base d w ↔
  ∃ fl, files w !! e.1 = Some fl ∧ e.2 = mtime fl ∧ dirname e.1 = d ∧
        is_archive base (basename e.1) = true.
Proof.
  unfold sorted_archives. rewrite sort_newest_first_perm, elem_of_archive_entries.
  split.
  - intros (f & fl & _ & Ha & Hfl & ->). by exists fl.
  - intros (fl & Hfl & Hm & Hd & Ha). destruct e as [[d' f] m]. cbn in *. subst.
    exists f, fl. repeat split; try done. apply elem_of_dir_entries. by exists fl.
Qed.

(** X15: pruning never keeps an older archive while removing a newer
    one: when the directory can be listed and no removal fails, every
    archive of the log that is removed has a modification time no later
    than that of every archive of the log that is kept. *)
Theorem cleanup_keeps_newest (self : ModelLogger) (fp : path) (d : dirpath)
    (w w' : world) (p q : path) (fl_p fl_q : file) :
  file_path self = Some fp → archive_dir self = Some d → can_list w d →
  removals_succeed w →
  _cleanup_old_archives self w = (w', Ok tt) →
  archives_in (basename fp) d w !! p = Some fl_p →
  archives_in (basename fp) d w !! q = Some fl_q →
  files w' !! p = None → is_Some (files w' !! q) →
  mtime fl_p <= mtime fl_q.
Proof.
  intros Hfp Had Hl Hrm Hrun Hp Hq Hgone Hkept.
  destruct (prune_outcome self fp d w Hfp Had Hl) as (w2 & Hrun2 & _ & _ & Hfiles).
  rewrite Hrun in Hrun2. injection Hrun2 as <-.
  set (sorted := sorted_archives (basename fp) d w) in *.
  set (n := slice_start (backup_count self) (length sorted)) in *.
  apply elem_of_archives_in in Hp as (Hpf & Hpd & Hpa), Hq as (Hqf & Hqd & Hqa).
  assert (Hpe : (p, mtime fl_p) ∈ sorted) by (apply sorted_archives_entry; by exists fl_p).
  assert (Hqe : (q, mtime fl_q) ∈ sorted) by (apply sorted_archives_entry; by exists fl_q).
  rewrite <- (take_drop n sorted) in Hpe, Hqe.
  apply elem_of_app in Hpe as [Hpe|Hpe], Hqe as [Hqe|Hqe].
  - exfalso. rewrite Hfiles, Hpf in Hgone.
    rewrite bool_decide_eq_false_2 in Hgone; [done|].
    pose proof (sorted_archives_NoDup (basename fp) d w) as Hnd.
    rewrite (sorted_archives_split _ _ _ n) in Hnd.
    apply NoDup_app in Hnd as (_ & Hdisj & _).
    apply Hdisj. apply list_elem_of_fmap. by exists (p, mtime fl_p).
  - exfalso. rewrite Hfiles, Hpf in Hgone.
    rewrite bool_decide_eq_false_2 in Hgone; [done|].
    pose proof (sorted_archives_NoDup (basename fp) d w) as Hnd.
    rewrite (sorted_archives_split _ _ _ n) in Hnd.
    apply NoDup_app in Hnd as (_ & Hdisj & _).
    apply Hdisj. apply list_elem_of_fmap. by exists (p, mtime fl_p).
  - pose proof (sort_newest_first_sorted
                  (archive_entries (basename fp) d w (dir_entries w d))) as Hs.
    fold (sorted_archives (basename fp) d w) in Hs. fold sorted in Hs.
    rewrite <- (take_drop n sorted) in Hs.
    exact (StronglySorted_app_1_elem_of _ _ _ _ _ Hs Hqe Hpe).
  - exfalso. destruct Hkept as [x Hx]. rewrite Hfiles, Hrm in Hx.
    rewrite bool_decide_eq_true_2 in Hx; [done|].
    apply list_elem_of_fmap. by exists (q, mtime fl_q).
Qed.

Lemma cleanup_keeps_newest_witness :
  mtime (File [x1f; x8b] 100) <= mtime (File [x1f; x8b] 200).
Proof.
  apply (cleanup_keeps_newest warning_logger app_log app_archive crowded_world
           (fst (_cleanup_old_archives warning_logger crowded_world))
           old_archive mid_archive _ _ eq_refl eq_refl crowded_can_list
           crowded_removals_succeed).
  - rewrite (surjective_pairing (_cleanup_old_archives _ _)) at 1. f_equal.
  - by vm_compute.
  - by vm_compute.
  - by vm_compute.
  - vm_compute. by eexists.
Defined.

(** ** Rotation and retention together *)









(** ** Archive names and the pruning filter *)

(** X18: the name [_get_archive_filename] builds always passes the
    filter of [_cleanup_old_archives] for the same log (it starts with
    the log's base name and ends in .gz) and differs from the log's own
    name, so a rotation never compresses the log onto itself and every
    archive it writes is subject to pruning.  Without a file path the
    call raises [TypeError].  Reading the clock changes nothing. *)
Theorem archive_filename_passes_filter (self : ModelLogger) (w : world) :
  (∀ fp, file_path self = Some fp →
     ∃ n, _get_archive_filename self w = (w, Ok n) ∧
          n = basename fp +:+ "_" +:+ strftime "%Y%m%d_%H%M%S" (wall w) +:+ ".gz" ∧
          endswith n ".gz" = true ∧ startswith n (basename fp) = true ∧
          n ≠ basename fp) ∧
  (file_path self = None → _get_archive_filename self w = (w, Raise TypeError)).
Proof.
  split.
  - intros fp Hfp. exists (archive_name_at fp (wall w)).
    split; [by apply get_archive_filename_ok|]. split; [reflexivity|].
    pose proof (archive_name_is_archive fp (wall w)) as Ha.
    unfold is_archive in Ha. apply andb_true_iff in Ha as [? ?].
    split; [done|]. split; [done|]. apply archive_name_fresh.
  - intros Hfp. unfold _get_archive_filename, bind, datetime_now. by rewrite Hfp.
Qed.

Lemma archive_filename_passes_filter_witness :
  ∃ n, _get_archive_filename warning_logger full_world = (full_world, Ok n) ∧
       n = "app.log_20240309_120000.gz" ∧ endswith n ".gz" = true ∧
       startswith n "app.log" = true ∧ n ≠ "app.log".
Proof.
  exact (proj1 (archive_filename_passes_filter warning_logger full_world) app_log eq_refl).
Defined.

Lemma neighbour_archive_name (fp fp2 : path) (t : datetime) :
  startswith (basename fp2) (basename fp) = true →
  is_archive (basename fp) (archive_name_at fp2 t) = true.
Proof.
  intros Hpre. apply startswith_spec in Hpre as [rest Hrest].
  unfold is_archive. apply andb_true_iff. split.
  - pose proof (archive_name_is_archive fp2 t) as Ha.
    unfold is_archive in Ha. by apply andb_true_iff in Ha as [? _].
  - apply startswith_spec. unfold archive_name_at. rewrite Hrest.
    eexists. by rewrite append_assoc.
Qed.

(** X19: the filter is a prefix test, so it also takes the archives of a
    neighbouring log whose name extends this log's name (app.log.audit
    next to app.log) when both archive into the same directory: such an
    archive is a pruning candidate of this logger, and with
    [backup_count] 0 a pruning removes it. *)
Theorem pruning_takes_neighbour_archives (self : ModelLogger) (fp fp2 : path)
    (d : dirpath) (t : datetime) (a : file) (w : world) :
  file_path self = Some fp → archive_dir self = Some d →
  startswith (basename fp2) (basename fp) = true →
  files w !! join d (archive_name_at fp2 t) = Some a →
  own_file self (join d (archive_name_at fp2 t)) ∧
  (can_list w d → removals_succeed w → backup_count self = 0 →
   ∃ w', _cleanup_old_archives self w = (w', Ok tt) ∧
         files w' !! join d (archive_name_at fp2 t) = None).
Proof.
  intros Hfp Had Hpre Ha.
  pose proof (neighbour_archive_name fp fp2 t Hpre) as Harch. split.
  - right. exists fp. by repeat split.
  - intros Hl Hrm Hbc.
    destruct (prune_outcome self fp d w Hfp Had Hl) as (w' & Hrun & _ & _ & Hfiles).
    rewrite Hbc in Hfiles. change (slice_start 0 _) with 0%nat in Hfiles.
    rewrite drop_0 in Hfiles. exists w'. split; [exact Hrun|].
    rewrite Hfiles, Hrm. rewrite bool_decide_eq_true_2; [done|].
    apply sorted_archives_paths. by split; [exists a|].
Qed.

Lemma pruning_takes_neighbour_archives_witness :
  ∃ w', _cleanup_old_archives discarding_logger shared_world = (w', Ok tt) ∧
        files w' !! audit_archive = None.
Proof.
  apply (proj2 (pruning_takes_neighbour_archives discarding_logger app_log app_log_audit
                  app_archive noon (File [x1f; x8b] 950) shared_world
                  eq_refl eq_refl eq_refl ltac:(by vm_compute))).
  - split; [|reflexivity]. refine (bool_decide_unpack _ _). vm_compute. exact I.
  - intros p. reflexivity.
  - reflexivity.
Defined.

(** ** Severity *)

(** X20: filtering is monotone in severity.  For an object with a valid
    level, a message level that passes lets every level of equal or
    higher priority pass; ERROR always passes, and DEBUG passes only
    when the object's level is DEBUG. *)
Theorem should_log_monotone (self : ModelLogger) :
  level self ∈ level_names →
  (∀ l1 l2 p1 p2, priority l1 = Some p1 → priority l2 = Some p2 → p1 <= p2 →
     _should_log self l1 = Ok true → _should_log self l2 = Ok true) ∧
  _should_log self "ERROR" = Ok true ∧
  (_should_log self "DEBUG" = Ok true ↔ level self = "DEBUG").
Proof.
  intros Hvalid. split; [|split].
  - intros l1 l2 p1 p2 H1 H2 Hle. unfold _should_log, priority in *.
    rewrite H1, H2. apply priority_Some in Hvalid as [pm Hpm].
    unfold priority in Hpm. rewrite Hpm. intros [= Hge]. f_equal.
    apply Z.geb_le in Hge. apply Z.geb_le. lia.
  - destruct self as [n fp tf M mfs bc ad]. cbn in Hvalid.
    level_cases Hvalid; reflexivity.
  - destruct self as [n fp tf M mfs bc ad]. cbn in Hvalid |- *.
    level_cases Hvalid; split; first [done | by vm_compute].
Qed.

Lemma should_log_monotone_witness :
  _should_log warning_logger "ERROR" = Ok true.
Proof.
  apply (should_log_monotone warning_logger). vm_compute. repeat constructor.
Defined.

(** The archive of the rotation is stamped with the clock; an older
    archive stamped in the future sorts before it, and with
    [backup_count] 1 the fresh archive is the one pruned. *)
Example clock_skew_example :
  let w' := fst (_rotate_log_file store_compress single_backup_logger skewed_world) in
  files w' !! full_archive = None ∧
  files w' !! old_archive = Some (File [x1f; x8b] 5000) ∧
  files w' !! app_log = Some (File [] 1000).
Proof. vm_compute. repeat split. Qed.

(** Two rotations within the same second write the same archive name:
    the second overwrites the first. *)
Example same_second_example :
  let w1 := fst (_write_to_file store_compress warning_logger "0123456789" full_world) in
  let w2 := fst (_write_to_file store_compress warning_logger "again" w1) in
  files w1 !! full_archive = Some (File (store_compress (encode "0123456789")) 1000) ∧
  files w2 !! full_archive = Some (File (store_compress (record_bytes "0123456789")) 1000) ∧
  archive_count (basename app_log) app_archive w2 = 1%nat.
Proof. vm_compute. repeat split. Qed.
